(** * Towers of Hanoi demo on the maker/MDAP voting engine

    A shallow embedding of [api/examples/maker_hanoi_20_disks.py]: the Hanoi
    domain (state, moves, ground truth, terminal validator, response parser)
    and the redundant-execution engine that the demo drives (red-flagger,
    step runner, voter, executor).

    Python values are modelled as follows: [int] is [Z]; a list is a [list],
    bottom of a peg first, exactly as the program stores it; [str] is an
    ASCII [string]; an exception is the [Raise] branch of [result]. *)

From Stdlib Require Import ZArith List String Ascii Lia Permutation Sorted.
From stdpp Require Import base decidable list sorting strings pretty gmap.

Local Open Scope string_scope.
Local Open Scope list_scope.
Local Open Scope Z_scope.

(** ** Python runtime: exceptions and sequence indexing *)

Inductive exn : Type :=
| ValueError (msg : string)
| IndexError
| JSONDecodeError
| RecursionError.

Inductive result (A : Type) : Type :=
| Ok (a : A)
| Raise (e : exn).
Arguments Ok {A} a.
Arguments Raise {A} e.

Definition rbind {A B} (m : result A) (k : A -> result B) : result B :=
  match m with
  | Ok a => k a
  | Raise e => Raise e
  end.

Notation "'let*' x ':=' m 'in' k" := (rbind m (fun x => k))
  (at level 10, x name, m at level 100, k at level 200).

Definition raises {A} (m : result A) : Prop :=
  match m with
  | Ok _ => False
  | Raise _ => True
  end.

(** [l[i]] resolves a possibly negative subscript to a position of [l]. *)
Definition py_index {A} (l : list A) (i : Z) : option nat :=
  let n := Z.of_nat (length l) in
  if decide (0 <= i < n) then Some (Z.to_nat i)
  else if decide (- n <= i < 0) then Some (Z.to_nat (n + i))
  else None.

(** [l[i]]: the element, or [IndexError]. *)
Definition py_get {A} (l : list A) (i : Z) : result A :=
  match py_index l i with
  | Some n =>
      match l !! n with
      | Some x => Ok x
      | None => Raise IndexError
      end
  | None => Raise IndexError
  end.

(** [l[-1]]. *)
Definition py_top {A} (l : list A) : result A :=
  match last l with
  | Some x => Ok x
  | None => Raise IndexError
  end.

(** A method call [l[i].m()] that mutates the list object stored at
    subscript [i]: the object is looked up, [m] yields its new contents (or
    raises) and the container holds the mutated object afterwards. *)
Definition py_update {A} (l : list (list A)) (i : Z)
    (m : list A -> result (list A)) : result (list (list A)) :=
  match py_index l i with
  | Some n =>
      match l !! n with
      | Some x => let* x' := m x in Ok (<[n := x']> l)
      | None => Raise IndexError
      end
  | None => Raise IndexError
  end.

(** [l.pop()]: drops the last element, [IndexError] on an empty list. *)
Definition py_pop {A} (l : list A) : result (list A) :=
  match l with
  | [] => Raise IndexError
  | _ :: _ => Ok (removelast l)
  end.

(** [l.append(x)]. *)
Definition py_append {A} (x : A) (l : list A) : result (list A) := Ok (l ++ [x]).

(** [x in l] on a list of integers. *)
Definition py_in (x : Z) (l : list Z) : bool := bool_decide (x ∈ l).

(** [list(range(n, 0, -1))]. *)
Fixpoint countdown (n : nat) : list Z :=
  match n with
  | O => []
  | S m => Z.of_nat (S m) :: countdown m
  end.

Definition range_down (n : Z) : list Z := countdown (Z.to_nat n).

Definition len {A} (l : list A) : Z := Z.of_nat (length l).

(** ** The Hanoi domain *)

Module Hanoi.

(** A move [[disk, from_peg, to_peg]]. *)
Abbreviation Action := (list Z) (only parsing).

(** The list representation of a state: one list per peg. *)
Abbreviation Pegs := (list (list Z)) (only parsing).

Record HanoiState : Type := mkHanoiState {
  num_disks : Z;
  pegs : Pegs
}.

(** [HanoiState.__init__]: all disks on peg 0, largest at the bottom. *)
Definition init (n : Z) : HanoiState :=
  {| num_disks := n; pegs := [range_down n; []; []] |}.

(** [HanoiState.copy]. *)
Definition copy (s : HanoiState) : HanoiState :=
  let new_state := init (num_disks s) in
  {| num_disks := num_disks new_state; pegs := map (fun peg => peg) (pegs s) |}.

Definition msg_not_on_peg (disk from_peg : Z) : string :=
  "disk " +:+ pretty disk +:+ " not on peg " +:+ pretty from_peg.

Definition msg_not_on_top (disk from_peg : Z) : string :=
  "disk " +:+ pretty disk +:+ " is not on top of peg " +:+ pretty from_peg.

Definition msg_smaller (disk top : Z) : string :=
  "cannot place disk " +:+ pretty disk +:+ " on smaller disk " +:+ pretty top.

(** The guard of the third check: [self.pegs[to_peg] and
    self.pegs[to_peg][-1] < disk]. *)
Definition blocked_by (dst : list Z) (disk : Z) : option Z :=
  match last dst with
  | Some top => if decide (top < disk) then Some top else None
  | None => None
  end.

(** [HanoiState.move]. The three checks run in the order of the source; the
    subscripts [self.pegs[from_peg]] and [self.pegs[to_peg]] raise
    [IndexError] when they name no peg. The state is updated in place: first
    the pop on the list at [from_peg], then the append on the list at
    [to_peg]. *)
Definition move (s : HanoiState) (disk from_peg to_peg : Z) : result HanoiState :=
  let* src := py_get (pegs s) from_peg in
  if negb (py_in disk src) then Raise (ValueError (msg_not_on_peg disk from_peg))
  else
    let* top := py_top src in
    if negb (bool_decide (top = disk))
    then Raise (ValueError (msg_not_on_top disk from_peg))
    else
      let* dst := py_get (pegs s) to_peg in
      match blocked_by dst disk with
      | Some smaller => Raise (ValueError (msg_smaller disk smaller))
      | None =>
          let* pegs1 := py_update (pegs s) from_peg py_pop in
          let* pegs2 := py_update pegs1 to_peg (py_append disk) in
          Ok {| num_disks := num_disks s; pegs := pegs2 |}
      end.

(** [HanoiState.is_solved]. *)
Definition is_solved (s : HanoiState) : result bool :=
  let* peg2 := py_get (pegs s) 2 in
  Ok (bool_decide (len peg2 = num_disks s)).

(** [HanoiState.to_list]. *)
Definition to_list (s : HanoiState) : Pegs := map (fun peg => peg) (pegs s).

(** [sum(len(peg) for peg in pegs)]. *)
Definition total_len (ps : Pegs) : Z := fold_left (fun acc peg => acc + len peg) ps 0.

(** [HanoiState.from_list]. *)
Definition from_list (ps : Pegs) : HanoiState :=
  let n := total_len ps in
  let state := init n in
  {| num_disks := num_disks state; pegs := map (fun peg => peg) ps |}.

(** *** Ground truth ([compute_hanoi_ground_truth]) *)

(** [peg and peg[-1] == d]. *)
Definition top_is (peg : list Z) (d : Z) : bool :=
  match last peg with
  | Some x => bool_decide (x = d)
  | None => false
  end.

(** The first loop: the index of the first peg whose top disk is disk 1,
    [None] when the loop ends without a [break]. *)
Fixpoint find_disk1 (peg_idx : Z) (rest : Pegs) : option Z :=
  match rest with
  | [] => None
  | peg :: rest' =>
      if top_is peg 1 then Some peg_idx else find_disk1 (peg_idx + 1) rest'
  end.

Definition disk1_peg (state : Pegs) : option Z := find_disk1 0 state.

(** [not to_peg or to_peg[-1] > disk]. *)
Definition accepts (to_peg : list Z) (disk : Z) : bool :=
  match last to_peg with
  | Some x => bool_decide (x > disk)
  | None => true
  end.

(** The inner loop [for to_peg_idx in range(3)] for one source peg. *)
Fixpoint try_targets (state : Pegs) (from_peg_idx disk : Z) (targets : list Z)
    : result (option Action) :=
  match targets with
  | [] => Ok None
  | to_peg_idx :: targets' =>
      if bool_decide (to_peg_idx = from_peg_idx)
      then try_targets state from_peg_idx disk targets'
      else
        let* to_peg := py_get state to_peg_idx in
        if accepts to_peg disk then Ok (Some [disk; from_peg_idx; to_peg_idx])
        else try_targets state from_peg_idx disk targets'
  end.

(** The outer loop [for from_peg_idx, from_peg in enumerate(state)]. *)
Fixpoint first_legal_move (state : Pegs) (from_peg_idx : Z) (rest : Pegs)
    : result (option Action) :=
  match rest with
  | [] => Ok None
  | from_peg :: rest' =>
      match last from_peg with
      | None => first_legal_move state (from_peg_idx + 1) rest'
      | Some disk =>
          if bool_decide (disk = 1)
          then first_legal_move state (from_peg_idx + 1) rest'
          else
            let* found := try_targets state from_peg_idx disk [0; 1; 2] in
            match found with
            | Some a => Ok (Some a)
            | None => first_legal_move state (from_peg_idx + 1) rest'
            end
      end
  end.

(** [compute_hanoi_ground_truth]; the inner [None] is Python's [None]. *)
Definition compute_hanoi_ground_truth (state : Pegs) (num_disks : Z)
    : result (option Action) :=
  match disk1_peg state with
  | Some p => Ok (Some [1; p; (p + 2) mod 3])
  | None => first_legal_move state 0 state
  end.

(** The strategy that [generate_hanoi_strategy] gives to every agent (rules 2
    to 4 of its text): disk 1 moves clockwise, and between two moves of
    disk 1 the legal move that does not involve disk 1 is made. The previous
    move tells which of the two is due. *)
Definition strategy_move (state : Pegs) (prev_move : option Action)
    : result (option Action) :=
  match prev_move with
  | Some (1 :: _) => first_legal_move state 0 state
  | _ =>
      match disk1_peg state with
      | Some p => Ok (Some [1; p; (p + 2) mod 3])
      | None => Ok None
      end
  end.

(** *** Terminal validator ([hanoi_validator]) *)

(** The loop [for peg in final_state: num_disks = max(num_disks, len(peg))],
    started from [sum(len(peg) for peg in [[]] * 3)], which is 0. *)
Definition validator_num_disks (final_state : Pegs) : Z :=
  fold_left (fun num_disks peg => Z.max num_disks (len peg)) final_state
            (total_len [[]; []; []]).

Definition msg_disks (num_disks got : Z) : string :=
  "expected " +:+ pretty num_disks +:+ " disks on peg 2, got " +:+ pretty got.

Definition msg_moves (expected_moves got : Z) : string :=
  "expected " +:+ pretty expected_moves +:+ " moves, got " +:+ pretty got.

Definition hanoi_validator {A} (final_state : Pegs) (actions : list A)
    : result (bool * string) :=
  let num_disks := validator_num_disks final_state in
  let* peg2 := py_get final_state 2 in
  if negb (bool_decide (len peg2 = num_disks))
  then Ok (false, msg_disks num_disks (len peg2))
  else
    let expected_moves := 2 ^ num_disks - 1 in
    if negb (bool_decide (len actions = expected_moves))
    then Ok (false, msg_moves expected_moves (len actions))
    else Ok (true, "").

(** [hanoi_state_builder]: the metadata dict [{"state": state}]. *)
Definition hanoi_state_builder (state : Pegs) : list (string * Pegs) :=
  [("state", state)].

(** The transition of the adapter contract on list states, as the demo's
    parts give it: [HanoiState.from_list], [move], [to_list]. An action that
    is not a triple cannot be unpacked into [disk, from_peg, to_peg]. *)
Definition transition (state : Pegs) (a : Action) : result Pegs :=
  match a with
  | [disk; from_peg; to_peg] =>
      let* s' := move (from_list state) disk from_peg to_peg in
      Ok (to_list s')
  | _ => Raise (ValueError "not enough values to unpack")
  end.

End Hanoi.

(** ** Text scanning: the two regular expressions of the response parser *)

Module Scan.

Definition code (c : ascii) : Z := Z.of_N (N_of_ascii c).

(** [\s] on ASCII text: tab, line feed, vertical tab, form feed, carriage
    return, the four separators 0x1c to 0x1f, and space. *)
Definition is_space (c : ascii) : bool :=
  let n := code c in
  ((9 <=? n) && (n <=? 13)) || ((28 <=? n) && (n <=? 32)).

(** [\d] on ASCII text. *)
Definition is_digit (c : ascii) : bool :=
  let n := code c in (48 <=? n) && (n <=? 57).

(** Case folding of [re.IGNORECASE] on ASCII text. *)
Definition lower (c : ascii) : ascii :=
  let n := code c in
  if (65 <=? n) && (n <=? 90) then ascii_of_N (Z.to_N (n + 32)) else c.

(** The default of [sys.get_int_max_str_digits()] (CPython 3.11 and later). *)
Definition int_max_str_digits : nat := 4300.

(** [int(digits)] on a string of ASCII digits: the decimal value, or
    [ValueError] when the string has more digits than the limit on the
    conversion of a string to an integer (leading zeros count). *)
Definition int_of_digits (ds : list ascii) : result Z :=
  if decide (int_max_str_digits < length ds)%nat
  then Raise (ValueError
                ("Exceeds the limit (4300 digits) for integer string conversion: "
                 +:+ "value has " +:+ pretty (length ds)
                 +:+ " digits; use sys.set_int_max_str_digits() to increase the limit"))
  else Ok (fold_left (fun acc c => 10 * acc + (code c - 48)) ds 0).

(** The longest prefix whose characters satisfy [f], and the rest: a greedy
    [\s*] or [\d*]. *)
Fixpoint span (f : ascii -> bool) (s : list ascii) : list ascii * list ascii :=
  match s with
  | c :: s' =>
      if f c then let '(a, b) := span f s' in (c :: a, b) else ([], s)
  | [] => ([], [])
  end.

Definition skip_ws (s : list ascii) : list ascii := snd (span is_space s).

(** [(\d+)]: a non-empty run of digits. *)
Definition digits (s : list ascii) : option (list ascii * list ascii) :=
  match span is_digit s with
  | ([], _) => None
  | (d, rest) => Some (d, rest)
  end.

(** A literal of the pattern, compared case-insensitively. *)
Fixpoint lit_ci (p s : list ascii) : option (list ascii) :=
  match p with
  | [] => Some s
  | a :: p' =>
      match s with
      | c :: s' =>
          if bool_decide (lower c = lower a) then lit_ci p' s' else None
      | [] => None
      end
  end.

Definition chars (s : string) : list ascii := list_ascii_of_string s.

(** [.*\]] with [re.DOTALL]: the longest prefix that ends in a closing
    bracket. *)
Fixpoint upto_last_close (s : list ascii) : option (list ascii) :=
  match s with
  | [] => None
  | c :: s' =>
      match upto_last_close s' with
      | Some p => Some (c :: p)
      | None => if bool_decide (c = "]"%char) then Some [c] else None
      end
  end.

(** [re.search]: the match at the leftmost position where the pattern
    matches; the end of the text is tried last. *)
Fixpoint re_search {R} (m : list ascii -> option R) (s : list ascii) : option R :=
  match m s with
  | Some r => Some r
  | None =>
      match s with
      | [] => None
      | _ :: s' => re_search m s'
      end
  end.

(** [move\s*=\s*\[(\d+),\s*(\d+),\s*(\d+)\]] anchored at the start of [s]:
    the three captured groups. *)
Definition match_move (s : list ascii) : option (list ascii * list ascii * list ascii) :=
  s1 ← lit_ci (chars "move") s;
  s2 ← lit_ci (chars "=") (skip_ws s1);
  s3 ← lit_ci (chars "[") (skip_ws s2);
  '(d, s4) ← digits s3;
  s5 ← lit_ci (chars ",") s4;
  '(f, s6) ← digits (skip_ws s5);
  s7 ← lit_ci (chars ",") s6;
  '(t, s8) ← digits (skip_ws s7);
  _ ← lit_ci (chars "]") s8;
  Some (d, f, t).

(** [next_state\s*=\s*(\[.*\])] anchored at the start of [s]: the captured
    group. *)
Definition match_state (s : list ascii) : option (list ascii) :=
  s1 ← lit_ci (chars "next_state") s;
  s2 ← lit_ci (chars "=") (skip_ws s1);
  s3 ← lit_ci (chars "[") (skip_ws s2);
  body ← upto_last_close s3;
  Some ("["%char :: body).


(** What the regular expressions denote, stated on the text itself. *)

Definition spaces (ws : list ascii) : Prop := Forall (fun c => is_space c = true) ws.

Definition number (d : list ascii) : Prop :=
  d <> [] /\ Forall (fun c => is_digit c = true) d.

Definition same_ci (w p : list ascii) : Prop := map lower w = map lower p.

(** The number that a string of digits denotes in decimal notation: every
    digit weighs ten times the digit on its right. *)
Fixpoint decimal (d : list ascii) : Z :=
  match d with
  | [] => 0
  | c :: d' => (code c - 48) * 10 ^ Z.of_nat (length d') + decimal d'
  end.

(** A number that [int] converts: within the limit on the number of digits. *)
Definition convertible (d : list ascii) : Prop :=
  (length d <= int_max_str_digits)%nat.

(** The three groups of a move are numbers that [int] converts. *)
Definition convertible3 (d f t : list ascii) : Prop :=
  convertible d /\ convertible f /\ convertible t.

(** [m] is an instance of the move pattern with groups [d], [f], [t]. *)
Definition move_instance (m d f t : list ascii) : Prop :=
  exists w ws1 ws2 ws3 ws4,
    m = w ++ ws1 ++ chars "=" ++ ws2 ++ chars "[" ++ d ++ chars "," ++ ws3
          ++ f ++ chars "," ++ ws4 ++ t ++ chars "]"
    /\ same_ci w (chars "move")
    /\ spaces ws1 /\ spaces ws2 /\ spaces ws3 /\ spaces ws4
    /\ number d /\ number f /\ number t.

Definition contains_move (text : list ascii) : Prop :=
  exists pre m post d f t, text = pre ++ m ++ post /\ move_instance m d f t.

(** [m] is an instance of the next_state pattern with group [cap]. *)
Definition state_instance (m cap : list ascii) : Prop :=
  exists w ws1 ws2 body,
    m = w ++ ws1 ++ chars "=" ++ ws2 ++ cap
    /\ cap = chars "[" ++ body ++ chars "]"
    /\ same_ci w (chars "next_state")
    /\ spaces ws1 /\ spaces ws2.

Definition contains_state (text : list ascii) : Prop :=
  exists pre m post cap, text = pre ++ m ++ post /\ state_instance m cap.

(** The groups of the leftmost instance of the move pattern in [text]. *)
Definition first_move (text d f t : list ascii) : Prop :=
  exists pre m post,
    text = pre ++ m ++ post /\ move_instance m d f t
    /\ forall pre' m' post' d' f' t',
         text = pre' ++ m' ++ post' -> move_instance m' d' f' t' ->
         (length pre <= length pre')%nat.

(** The group of the leftmost instance of the next_state pattern in [text],
    taken up to the last closing bracket of the text. *)
Definition captured_state (text cap : list ascii) : Prop :=
  exists pre m post,
    text = pre ++ m ++ post /\ state_instance m cap
    /\ ~ "]"%char ∈ post
    /\ forall pre' m' post' cap',
         text = pre' ++ m' ++ post' -> state_instance m' cap' ->
         (length pre <= length pre')%nat.

(** A greedy run stops at [b]: [b] is empty or starts outside the class. *)
Definition stops (f : ascii -> bool) (b : list ascii) : Prop :=
  match b with
  | [] => True
  | c :: _ => f c = false
  end.

(** The punctuation of the two patterns. *)
Definition punct (c : ascii) : Prop := c ∈ chars "=[,]".

End Scan.

(** ** The response parser ([parse_hanoi_response]) *)

Module Parser.
Import Scan.

Section WithJson.

(** [json.loads] of the Python standard library is taken as given: the
    value of a JSON document, or the exception it raises ([JSONDecodeError]
    on a text that is not JSON, [ValueError] on an integer beyond the limit
    of [int], [RecursionError] on brackets nested too deep), which
    [parse_hanoi_response] lets through. *)
Variable JSON : Type.
Variable json_loads : string -> result JSON.

Definition parse_hanoi_response (raw_text : string)
    : result (Hanoi.Action * JSON) :=
  match re_search match_move (chars raw_text) with
  | None => Raise (ValueError "move not found")
  | Some (g1, g2, g3) =>
      let* disk := int_of_digits g1 in
      let* from_peg := int_of_digits g2 in
      let* to_peg := int_of_digits g3 in
      let action := [disk; from_peg; to_peg] in
      match re_search match_state (chars raw_text) with
      | None => Raise (ValueError "next_state not found")
      | Some state_str =>
          let* next_state := json_loads (string_of_list_ascii state_str) in
          Ok (action, next_state)
      end
  end.

End WithJson.

(** The output format that both prompts declare as REQUIRED
    ([generate_hanoi_strategy] and [build_hanoi_prompt]), and the example
    that the strategy prompt gives of it. *)
Definition nl : string := String (ascii_of_N 10) EmptyString.

Definition required_format : string :=
  "move = [disk, from_peg, to_peg]" +:+ nl +:+
  "next_state = [[peg0_disks], [peg1_disks], [peg2_disks]]" +:+ nl.

Definition example_output : string :=
  "move = [1, 0, 2]" +:+ nl +:+
  "next_state = [[5, 4, 3, 2], [], [1]]" +:+ nl.

End Parser.

(** ** The redundant-execution engine

    The demo imports [RedFlagger], [SynqedStepRunner], [Voter] and
    [MdapExecutor] from the [synqed.mdap] package and only configures and
    calls them; their behaviour is taken from the specification of the
    engine. *)

Module Mdap.

(** *** Red-Flagger *)

(** Modelled from the spec: the configuration of the Red-Flagger (a token
    ceiling, a set of required fields, the strict-format switch), as the demo
    passes it to the constructor. The class body is not part of the
    sources. *)
Record RedFlagger : Type := mkRedFlagger {
  max_output_tokens : Z;
  required_fields : list string;
  strict_format : bool
}.

(** Modelled from the spec: the verdict attached to a raw output, pass or
    fail with a reason used for diagnostics only. *)
Inductive RedFlagVerdict : Type :=
| Pass
| Fail (reason : string).

Section RedFlag.

(** Modelled from the spec: the structural markers of the output. The
    required fields are names of markers (an action marker, a
    resulting-state marker); [instances field text] is the number of
    instances of the marker of [field] in [text]. How a marker is recognised
    is a matter of the domain, which the spec leaves to the policy. *)
Variable instances : string -> string -> nat.

(** Modelled from the spec: the required-fields check of the Red-Flagger,
    the marker of every configured field must be present in the text. The
    result is the first field whose marker is absent. *)
Definition missing_field (rf : RedFlagger) (raw_text : string) : option string :=
  List.find (fun field => Nat.eqb (instances field raw_text) 0) (required_fields rf).

(** Modelled from the spec: the strict-format check of the Red-Flagger, a
    single instance of every marker, none duplicated. The result is the first
    field whose marker does not occur exactly once. *)
Definition duplicated_field (rf : RedFlagger) (raw_text : string) : option string :=
  List.find (fun field => negb (Nat.eqb (instances field raw_text) 1))
            (required_fields rf).

(** Modelled from the spec: the Red-Flagger, a pure function of the raw text
    and its token count that applies the token ceiling, the required fields
    and, in strict mode, the single-occurrence check. *)
Definition red_flag (rf : RedFlagger) (raw_text : string) (output_tokens : Z)
    : RedFlagVerdict :=
  if decide (max_output_tokens rf < output_tokens)
  then Fail "output exceeds the token ceiling"
  else
    match missing_field rf raw_text with
    | Some field => Fail ("missing required field: " +:+ field)
    | None =>
        if strict_format rf then
          match duplicated_field rf raw_text with
          | Some field => Fail ("ambiguous field: " +:+ field)
          | None => Pass
          end
        else Pass
    end.

End RedFlag.



(** *** Step Runner *)

(** Modelled from the spec: what one invocation of the Step Runner yields, a
    valid candidate or a rejection with its reason. *)
Inductive Sample (C : Type) : Type :=
| Accepted (c : C)
| Rejected (reason : string).
Arguments Accepted {C} c.
Arguments Rejected {C} reason.

(** Modelled from the spec: the reply of the generation backend, raw text
    with its token counts. *)
Record BackendReply : Type := mkReply {
  raw_text : string;
  input_tokens : Z;
  output_tokens : Z
}.

(** Modelled from the spec: the procedure of the Step Runner after the
    backend call. A backend error counts as a rejection; the Red-Flagger runs
    over the raw output; an output that passes is parsed, and a parse failure
    is treated like a red-flag rejection. *)
Definition step_runner {C} (instances : string -> string -> nat) (rf : RedFlagger)
    (response_parser : string -> result C) (reply : result BackendReply) : Sample C :=
  match reply with
  | Raise _ => Rejected "backend error"
  | Ok r =>
      match red_flag instances rf (raw_text r) (output_tokens r) with
      | Fail reason => Rejected reason
      | Pass =>
          match response_parser (raw_text r) with
          | Ok c => Accepted c
          | Raise _ => Rejected "unparseable output"
          end
      end
  end.

(** *** Counters *)

(** Modelled from the spec: the three counters of an execution. *)
Record Counters : Type := mkCounters {
  total_samples : nat;
  total_valid_samples : nat;
  total_red_flagged : nat
}.

Definition no_samples : Counters :=
  {| total_samples := 0; total_valid_samples := 0; total_red_flagged := 0 |}.

(** Modelled from the spec: every invocation of the Step Runner increments
    the sample counter, an accepted candidate the valid-sample counter and a
    rejection the red-flagged counter. *)
Definition count_sample {C} (s : Sample C) (c : Counters) : Counters :=
  match s with
  | Accepted _ =>
      {| total_samples := S (total_samples c);
         total_valid_samples := S (total_valid_samples c);
         total_red_flagged := total_red_flagged c |}
  | Rejected _ =>
      {| total_samples := S (total_samples c);
         total_valid_samples := total_valid_samples c;
         total_red_flagged := S (total_red_flagged c) |}
  end.

Definition balanced (c : Counters) : Prop :=
  (total_valid_samples c + total_red_flagged c = total_samples c)%nat.

(** The counters after the first [m] samples of a voting round that started
    with the counters [ctr]. *)
Fixpoint counters_after {C} (draw : nat -> Sample C) (ctr : Counters) (m : nat)
    : Counters :=
  match m with
  | O => ctr
  | S m' => count_sample (draw m') (counters_after draw ctr m')
  end.

(** *** Voter *)

Section Voter.
Context {Cand : Type} `{Countable Cand}.

(** Modelled from the spec: the parameters of the Voter, as the demo passes
    them ([k], [max_votes], [max_samples], [first_to_k]). *)
Record VoterConfig : Type := mkVoterConfig {
  k : Z;
  max_votes : nat;
  max_samples : nat;
  first_to_k : bool
}.

(** Modelled from the spec: the vote tally, a mapping from a candidate to its
    vote count, keyed by equality of candidates. *)
Definition votes_for (c : Cand) (tally : gmap Cand nat) : nat :=
  default 0%nat (tally !! c).

(** Modelled from the spec: an accepted sample increments its tally entry,
    creating it at 1 if new. *)
Definition add_vote (c : Cand) (tally : gmap Cand nat) : gmap Cand nat :=
  <[c := S (votes_for c tally)]> tally.

(** Modelled from the spec: the leading candidate, an entry of the tally
    with the highest count. *)
Definition leader (entries : list (Cand * nat)) : option (Cand * nat) :=
  snd <$> list_find (fun e => snd e = max_list (snd <$> entries)) entries.

(** Modelled from the spec: the second-place count, the highest count among
    the other candidates, 0 when there is none. *)
Definition second_place (w : Cand) (entries : list (Cand * nat)) : nat :=
  max_list (snd <$> filter (fun e => fst e <> w) entries).

(** Modelled from the spec: the stopping rule. First-to-ahead-by-k stops when
    the leader's count exceeds the second-place count by at least [k];
    first-to-k stops when a candidate's count reaches [k]. *)
Definition decide_winner (cfg : VoterConfig) (tally : gmap Cand nat) : option Cand :=
  let entries := map_to_list tally in
  match leader entries with
  | None => None
  | Some (w, n) =>
      if first_to_k cfg then
        if decide (k cfg <= Z.of_nat n) then Some w else None
      else
        if decide (k cfg <= Z.of_nat n - Z.of_nat (second_place w entries))
        then Some w else None
  end.

(** Modelled from the spec: how a voting round ends. *)
Inductive VoteOutcome : Type :=
| Winner (c : Cand)
| StepFailure
| ConfigError.

Record VoteResult : Type := mkVoteResult {
  outcome : VoteOutcome;
  tally : gmap Cand nat;
  drawn : nat;
  counters : Counters
}.

(** Modelled from the spec: the sampling loop of the Voter. [fuel] is what is
    left of [max_samples], [n] the number of samples drawn so far and
    [votes] the number of accepted ones. The round fails when either cap is
    reached before a winner is decided. *)
Fixpoint vote_loop (cfg : VoterConfig) (draw : nat -> Sample Cand) (fuel n votes : nat)
    (t : gmap Cand nat) (ctr : Counters) : VoteResult :=
  match fuel with
  | O => mkVoteResult StepFailure t n ctr
  | S fuel' =>
      if decide (max_votes cfg <= votes)%nat then mkVoteResult StepFailure t n ctr
      else
        let s := draw n in
        let ctr' := count_sample s ctr in
        match s with
        | Rejected _ => vote_loop cfg draw fuel' (S n) votes t ctr'
        | Accepted c =>
            let t' := add_vote c t in
            match decide_winner cfg t' with
            | Some w => mkVoteResult (Winner w) t' (S n) ctr'
            | None => vote_loop cfg draw fuel' (S n) (S votes) t' ctr'
            end
        end
  end.

(** Modelled from the spec: nonsensical parameters, [k <= 0] or a zero
    cap. *)
Definition bad_config (cfg : VoterConfig) : bool :=
  bool_decide (k cfg <= 0) || Nat.eqb (max_votes cfg) 0 || Nat.eqb (max_samples cfg) 0.

(** Modelled from the spec: the Voter. A configuration error fails fast,
    before any sample is drawn. *)
Definition vote (cfg : VoterConfig) (draw : nat -> Sample Cand) (ctr : Counters)
    : VoteResult :=
  if bad_config cfg then mkVoteResult ConfigError ∅ 0 ctr
  else vote_loop cfg draw (max_samples cfg) 0 0 ∅ ctr.

(** A configuration that passes the fail-fast check and whose caps leave room
    for [k] accepted samples. *)
Definition caps_allow_k (cfg : VoterConfig) : Prop :=
  bad_config cfg = false
  /\ k cfg <= Z.of_nat (max_votes cfg) /\ k cfg <= Z.of_nat (max_samples cfg).

(** The accepted candidates among the first [n] samples, and the number of
    votes that a candidate received among them. *)
Fixpoint accepted_upto (draw : nat -> Sample Cand) (n : nat) : list Cand :=
  match n with
  | O => []
  | S m =>
      match draw m with
      | Accepted c => accepted_upto draw m ++ [c]
      | Rejected _ => accepted_upto draw m
      end
  end.

Definition count_votes (c : Cand) (l : list Cand) : nat :=
  length (filter (fun x => x = c) l).

(** The tally counts the accepted samples among the first [n]. *)
Definition tally_counts (draw : nat -> Sample Cand) (n : nat)
    (t : gmap Cand nat) : Prop :=
  forall c, votes_for c t = count_votes c (accepted_upto draw n).

End Voter.

Arguments VoteResult Cand {_ _}.
Arguments VoteOutcome : clear implicits.

(** *** MDAP Executor *)

(** Modelled from the spec: the domain adapter contract as far as the
    Executor consumes it (state builder, transition, terminal validator);
    one abstraction with named operations, implemented per domain. *)
Class DomainAdapter (State Action Meta : Type) : Type := mkAdapter {
  state_builder : State -> Meta;
  transition : State -> Action -> result State;
  validator : State -> list Action -> result (bool * string)
}.

Section Executor.
Context {State Action Meta : Type}.
Context `{Countable State, Countable Action}.
Context (adapter : DomainAdapter State Action Meta).

(** Modelled from the spec: the metadata of a step, the context that the
    state builder projects from the state and the previous action. *)
Record Metadata : Type := mkMetadata {
  built : Meta;
  prev_move : option Action
}.

(** Modelled from the spec: the input of one step. *)
Record StepInput : Type := mkStepInput {
  step_index : nat;
  total_steps : nat;
  state : State;
  metadata : Metadata
}.

(** Modelled from the spec: the states of the Executor. *)
Inductive Status : Type :=
| Pending
| Running
| Succeeded
| Failed (at_step : nat) (reason : string).

(** Modelled from the spec: the progress that the Executor emits after a
    step, its index, the tally of the step and the running counters. *)
Record Progress : Type := mkProgress {
  progress_step : nat;
  progress_tally : gmap (Action * State) nat;
  progress_counters : Counters
}.

(** Modelled from the spec: the result of an execution, the accepted
    actions, the success flag and the counters; with it the final state, the
    final status and the progress emitted on the way. *)
Record ExecutionResult : Type := mkResult {
  actions : list Action;
  success : bool;
  result_counters : Counters;
  final_state : State;
  status : Status;
  progress : list Progress
}.

(** A Step Runner as the Voter sees it: the sample that its [n]-th
    invocation for a step input yields. *)
Definition Runner : Type := StepInput -> nat -> Sample (Action * State).

(** Modelled from the spec: the Running loop of the Executor over the
    remaining steps. Each step builds its input from the current state, the
    index and the previous action, invokes the Voter, applies the winning
    action with the transition function and appends it; a step failure, a
    configuration error or a transition that fails ends the run as Failed.
    After the last step the terminal validator decides between Succeeded and
    Failed. *)
Fixpoint run_steps (cfg : VoterConfig) (runner : Runner) (num_steps remaining : nat)
    (st : State) (prev : option Action) (acts : list Action) (ctr : Counters)
    (log : list Progress) : ExecutionResult :=
  match remaining with
  | O =>
      match validator st acts with
      | Ok (true, _) => mkResult acts true ctr st Succeeded log
      | Ok (false, reason) => mkResult acts false ctr st (Failed num_steps reason) log
      | Raise _ => mkResult acts false ctr st (Failed num_steps "validator error") log
      end
  | S remaining' =>
      let idx := (num_steps - remaining)%nat in
      let input := mkStepInput idx num_steps st (mkMetadata (state_builder st) prev) in
      let r := vote cfg (runner input) ctr in
      let log' := log ++ [mkProgress idx (tally r) (counters r)] in
      match outcome r with
      | Winner (a, _) =>
          match transition st a with
          | Ok st' =>
              run_steps cfg runner num_steps remaining' st' (Some a) (acts ++ [a])
                        (counters r) log'
          | Raise _ =>
              mkResult acts false (counters r) st (Failed idx "invalid transition") log'
          end
      | StepFailure =>
          mkResult acts false (counters r) st (Failed idx "no winner within the caps") log'
      | ConfigError =>
          mkResult acts false (counters r) st (Failed idx "configuration error") log'
      end
  end.

(** Modelled from the spec: a run of the Executor from an initial state over
    [num_steps] steps. *)
Definition run_task (cfg : VoterConfig) (runner : Runner) (initial_state : State)
    (num_steps : nat) : ExecutionResult :=
  run_steps cfg runner num_steps num_steps initial_state None [] no_samples [].

(** A Step Runner that always returns the candidate [correct] picks for the
    step input, never a rejection. *)
Definition always (correct : StepInput -> Action * State) : Runner :=
  fun input _ => Accepted (correct input).

End Executor.

Arguments StepInput : clear implicits.
Arguments Metadata : clear implicits.
Arguments Progress State Action {_ _ _ _}.
Arguments ExecutionResult State Action {_ _ _ _}.
Arguments Runner : clear implicits.

End Mdap.

(** ** The demo: the Hanoi adapter on the engine *)

Module Demo.
Import Hanoi Mdap.


(** The adapter that [run_full_task] hands to the Executor:
    [hanoi_state_builder], [hanoi_validator], and the Hanoi transition. *)
#[export] Instance hanoi_adapter : DomainAdapter Pegs Action (list (string * Pegs)) :=
  {| state_builder := hanoi_state_builder;
     transition := Hanoi.transition;
     validator := hanoi_validator |}.

(** The defaults of [--k], [--max-votes], [--max-samples] and
    [--first-to-k]. *)
Definition default_config : VoterConfig :=
  {| k := 3; max_votes := 20; max_samples := 100; first_to_k := false |}.

(** The candidate of a step whose action is [a]: the action with the state
    that it leads to (the current state when the action cannot be
    applied). *)
Definition candidate_of (st : Pegs) (a : option Action) : Action * Pegs :=
  match a with
  | Some a =>
      match Hanoi.transition st a with
      | Ok st' => (a, st')
      | Raise _ => (a, st)
      end
  | None => ([], st)
  end.

(** The correct candidate of a step according to the strategy of the
    prompt. *)
Definition strategy_candidate
    (input : StepInput Pegs Action (list (string * Pegs))) : Action * Pegs :=
  match strategy_move (state input) (prev_move (metadata input)) with
  | Ok a => candidate_of (state input) a
  | Raise _ => ([], state input)
  end.

(** The correct candidate of a step according to
    [compute_hanoi_ground_truth]. *)
Definition ground_truth_candidate (num_disks : Z)
    (input : StepInput Pegs Action (list (string * Pegs))) : Action * Pegs :=
  match compute_hanoi_ground_truth (state input) num_disks with
  | Ok a => candidate_of (state input) a
  | Raise _ => ([], state input)
  end.

(** [run_full_task] for [num_disks] disks: the initial state is
    [HanoiState(num_disks).to_list()] and the number of steps is
    [2 ** num_disks - 1]. *)
Definition run_full_task (cfg : VoterConfig)
    (runner : Runner Pegs Action (list (string * Pegs))) (num_disks : Z)
    : ExecutionResult Pegs Action :=
  run_task hanoi_adapter cfg runner (to_list (init num_disks))
           (Z.to_nat (2 ^ num_disks - 1)).

End Demo.

(** ** What the properties speak about *)

Module Rules.
Import Hanoi.

(** The peg that a subscript names in a state, if any. *)
Definition peg_at (s : HanoiState) (i : Z) : option (list Z) :=
  match py_index (pegs s) i with
  | Some n => pegs s !! n
  | None => None
  end.

(** The three rules that a move can break. *)
Definition not_on_peg (s : HanoiState) (disk from_peg : Z) : Prop :=
  forall src, peg_at s from_peg = Some src -> ~ disk ∈ src.

Definition not_on_top (s : HanoiState) (disk from_peg : Z) : Prop :=
  forall src, peg_at s from_peg = Some src -> last src <> Some disk.

Definition onto_smaller (s : HanoiState) (disk to_peg : Z) : Prop :=
  exists dst top, peg_at s to_peg = Some dst /\ last dst = Some top /\ top < disk.

Definition breaks_rule (s : HanoiState) (disk from_peg to_peg : Z) : Prop :=
  not_on_peg s disk from_peg \/ not_on_top s disk from_peg
  \/ onto_smaller s disk to_peg.

(** A sequence of [move] calls, stopping at the first that raises. *)
Fixpoint moves (s : HanoiState) (calls : list (Z * Z * Z)) : result HanoiState :=
  match calls with
  | [] => Ok s
  | (disk, from_peg, to_peg) :: calls' =>
      let* s' := move s disk from_peg to_peg in
      moves s' calls'
  end.

(** Strictly decreasing from bottom to top. *)
Definition descending (peg : list Z) : Prop :=
  StronglySorted (fun below above => above < below) peg.

(** The pegs together hold exactly the disks [1..n], each once. *)
Definition holds_disks (n : Z) (ps : Pegs) : Prop :=
  Permutation (concat ps) (range_down n).

Definition well_formed (n : Z) (s : HanoiState) : Prop :=
  Forall descending (pegs s) /\ holds_disks n (pegs s).

(** Disk [d] is the top disk of peg [p]. *)
Definition on_top (state : Pegs) (p : Z) (d : Z) : Prop :=
  exists peg, 0 <= p /\ state !! Z.to_nat p = Some peg /\ last peg = Some d.

End Rules.

(** ** Calibration: the task sampler and the ground truth function *)

Module Calibration.
Import Hanoi Mdap.

(** [task_sampler] of [run_calibration]. Its argument [idx] is not used;
    [drawn] is the value that [random.randint(0, 2 ** num_disks - 2)]
    returns, and the call raises when that range is empty (the text of the
    message depends on the Python version and is shortened here). The state
    is always the initial one and the metadata is the empty dict. *)
Definition task_sampler (num_disks drawn idx : Z)
    : result (StepInput Pegs Action (list (string * Pegs))) :=
  if decide (2 ^ num_disks - 2 < 0)
  then Raise (ValueError "empty range for randrange()")
  else
    let step_idx := drawn in
    let state := init num_disks in
    Ok (mkStepInput (Z.to_nat step_idx) (Z.to_nat (2 ^ num_disks - 1))
          (to_list state) (mkMetadata [] None)).

(** [ground_truth_fn] of [run_calibration]. *)
Definition ground_truth_fn (num_disks : Z)
    (step_input : StepInput Pegs Action (list (string * Pegs)))
    : result (option Action) :=
  compute_hanoi_ground_truth (state step_input) num_disks.

End Calibration.

(** ** Proof automation *)

(** Right-nested form of a concatenation. *)
Ltac flatten_app :=
  repeat (progress (rewrite <- ?app_assoc, <- ?app_comm_cons; simpl)).

(** * Properties *)

(** ** Subscripts *)

Section Subscripts.
Context {A : Type}.
Implicit Types (l : list A) (i : Z) (n : nat).

Lemma py_index_lt l i n : py_index l i = Some n -> (n < length l)%nat.
Proof.
  unfold py_index. intros Hi.
  repeat case_decide; simplify_eq; lia.
Qed.

Lemma py_get_Ok l i x :
  py_get l i = Ok x <-> exists n, py_index l i = Some n /\ l !! n = Some x.
Proof.
  unfold py_get. split.
  - destruct (py_index l i) as [n|] eqn:Hi; [|done].
    destruct (l !! n) as [y|] eqn:Hn; [|done].
    intros [= ->]. eauto.
  - intros (n & -> & ->). done.
Qed.

Lemma py_index_same_length {B} l (l' : list B) i :
  length l = length l' -> py_index l i = py_index l' i.
Proof. intros Hlen. unfold py_index. by rewrite Hlen. Qed.

End Subscripts.

Lemma py_update_Ok {A} (l : list (list A)) i m n x x' :
  py_index l i = Some n -> l !! n = Some x -> m x = Ok x' ->
  py_update l i m = Ok (<[n := x']> l).
Proof. intros Hi Hn Hm. unfold py_update. by rewrite Hi, Hn, Hm. Qed.

Lemma py_pop_snoc {A} (l : list A) x : py_pop (l ++ [x]) = Ok l.
Proof.
  unfold py_pop. destruct (l ++ [x]) eqn:E.
  - by destruct l.
  - by rewrite <- E, removelast_last.
Qed.

(** ** The Hanoi state *)

Section HanoiFacts.
Import Hanoi Rules.
Implicit Types (s : HanoiState) (disk from_peg to_peg : Z).

Lemma peg_at_Some s i peg :
  peg_at s i = Some peg <-> exists n, py_index (pegs s) i = Some n /\ pegs s !! n = Some peg.
Proof.
  unfold peg_at. split.
  - destruct (py_index (pegs s) i) as [n|]; [|done]. eauto.
  - by intros (n & -> & ->).
Qed.

Lemma blocked_by_None dst disk :
  blocked_by dst disk = None <-> forall top, last dst = Some top -> ~ top < disk.
Proof.
  unfold blocked_by. destruct (last dst) as [top|]; [|naive_solver].
  case_decide; naive_solver.
Qed.

(** When [move] returns, and what it returns: the source peg ends in the
    disk, the target peg does not end in a smaller one, and the two in-place
    updates have been made in order. *)
Lemma move_Ok s disk from_peg to_peg s' :
  move s disk from_peg to_peg = Ok s' <->
  exists i j src dst,
    py_index (pegs s) from_peg = Some i /\ py_index (pegs s) to_peg = Some j
    /\ pegs s !! i = Some (src ++ [disk]) /\ pegs s !! j = Some dst
    /\ blocked_by dst disk = None
    /\ s' = {| num_disks := num_disks s;
               pegs := <[j := (if decide (i = j) then src else dst) ++ [disk]]>
                         (<[i := src]> (pegs s)) |}.
Proof.
  assert (Hupd : forall i j src dst,
    py_index (pegs s) from_peg = Some i -> py_index (pegs s) to_peg = Some j ->
    pegs s !! i = Some (src ++ [disk]) -> pegs s !! j = Some dst ->
    (let* pegs1 := py_update (pegs s) from_peg py_pop in
     let* pegs2 := py_update pegs1 to_peg (py_append disk) in
     Ok {| num_disks := num_disks s; pegs := pegs2 |}) =
    Ok {| num_disks := num_disks s;
          pegs := <[j := (if decide (i = j) then src else dst) ++ [disk]]>
                    (<[i := src]> (pegs s)) |}).
  { intros i j src dst Hi Hj Hsrc Hdst.
    rewrite (py_update_Ok _ _ _ _ _ _ Hi Hsrc (py_pop_snoc _ _)). simpl.
    erewrite py_update_Ok; [done| | |done].
    - rewrite <- Hj. apply py_index_same_length. by rewrite length_insert.
    - rewrite list_lookup_insert. apply py_index_lt in Hi.
      destruct (decide (i = j)) as [->|Hne].
      + by rewrite decide_True.
      + by rewrite decide_False by (intros [? _]; done). }
  unfold move. split.
  - destruct (py_get (pegs s) from_peg) as [src0|] eqn:Hf; simpl; [|done].
    apply py_get_Ok in Hf as (i & Hi & Hsrc).
    destruct (py_in disk src0); simpl; [|done].
    unfold py_top. destruct (last src0) as [top|] eqn:Hl; simpl; [|done].
    case_bool_decide; simpl; [|done]. subst top.
    apply last_Some in Hl as [src ->].
    destruct (py_get (pegs s) to_peg) as [dst|] eqn:Ht; simpl; [|done].
    apply py_get_Ok in Ht as (j & Hj & Hdst).
    destruct (blocked_by dst disk) eqn:Hb; [done|].
    rewrite (Hupd i j src dst) by done. intros [= <-].
    exists i, j, src, dst. done.
  - intros (i & j & src & dst & Hi & Hj & Hsrc & Hdst & Hb & ->).
    assert (py_get (pegs s) from_peg = Ok (src ++ [disk])) as ->
      by (apply py_get_Ok; eauto).
    assert (py_get (pegs s) to_peg = Ok dst) as -> by (apply py_get_Ok; eauto).
    simpl. unfold py_in. rewrite bool_decide_eq_true_2 by set_solver. simpl.
    unfold py_top. rewrite last_snoc. simpl.
    rewrite bool_decide_eq_true_2 by done. simpl. rewrite Hb.
    by apply Hupd.
Qed.

Lemma raises_not_Ok {A} (m : result A) : raises m <-> forall a, m <> Ok a.
Proof. destruct m; simpl; naive_solver. Qed.

(** [move] returns only when no rule is broken and the target subscript
    names a peg. *)
Lemma move_Ok_no_break s disk from_peg to_peg s' :
  move s disk from_peg to_peg = Ok s' ->
  ~ (breaks_rule s disk from_peg to_peg \/ peg_at s to_peg = None).
Proof.
  intros (i & j & src & dst & Hi & Hj & Hsrc & Hdst & Hb & _)%move_Ok.
  assert (peg_at s from_peg = Some (src ++ [disk])) as Hf
    by (apply peg_at_Some; eauto).
  assert (peg_at s to_peg = Some dst) as Ht by (apply peg_at_Some; eauto).
  intros [[Hr | [Hr | (dst' & top & Hd & Hl & Hlt)]] | Hr].
  - apply (Hr _ Hf). set_solver.
  - apply (Hr _ Hf). apply last_snoc.
  - rewrite Ht in Hd. injection Hd as <-.
    by apply (proj1 (blocked_by_None _ _) Hb top).
  - congruence.
Qed.

(** Every call either breaks a rule, names no target peg, or returns. *)
Lemma move_break_or_Ok s disk from_peg to_peg :
  (breaks_rule s disk from_peg to_peg \/ peg_at s to_peg = None)
  \/ exists s', move s disk from_peg to_peg = Ok s'.
Proof.
  destruct (peg_at s to_peg) as [dst|] eqn:Ht; [|by left; right].
  destruct (peg_at s from_peg) as [src0|] eqn:Hf.
  2:{ left. left. left. intros src. congruence. }
  destruct (last src0) as [top|] eqn:Hl.
  2:{ left. left. right. left. intros src. congruence. }
  destruct (decide (top = disk)) as [->|Hne].
  2:{ left. left. right. left. intros src. congruence. }
  destruct (blocked_by dst disk) as [smaller|] eqn:Hb.
  { left. left. right. right. exists dst, smaller. split; [done|].
    unfold blocked_by in Hb. destruct (last dst) as [top|]; [|done].
    case_decide; naive_solver. }
  right. apply last_Some in Hl as [src ->].
  apply peg_at_Some in Hf as (i & Hi & Hsrc).
  apply peg_at_Some in Ht as (j & Hj & Hdst).
  eexists. apply move_Ok. exists i, j, src, dst. done.
Qed.

(** Where the two subscripts name different pegs, [move] takes the disk off
    the one and puts it on the other; where they name the same peg the state
    is as before. *)
Lemma move_effect s disk from_peg to_peg s' :
  move s disk from_peg to_peg = Ok s' ->
  num_disks s' = num_disks s /\ length (pegs s') = length (pegs s)
  /\ exists i j src dst,
      py_index (pegs s) from_peg = Some i /\ py_index (pegs s) to_peg = Some j
      /\ pegs s !! i = Some (src ++ [disk]) /\ pegs s !! j = Some dst
      /\ (i = j -> pegs s' = pegs s)
      /\ (i <> j ->
          pegs s' !! i = Some src /\ pegs s' !! j = Some (dst ++ [disk])
          /\ forall m, m <> i -> m <> j -> pegs s' !! m = pegs s !! m).
Proof.
  intros (i & j & src & dst & Hi & Hj & Hsrc & Hdst & Hb & ->)%move_Ok. simpl.
  split; [done|]. split; [by rewrite !length_insert|].
  exists i, j, src, dst. repeat split; try done.
  - intros <-. rewrite decide_True by done.
    rewrite list_insert_insert_eq. by apply list_insert_id.
  - rewrite list_lookup_insert_ne by done.
    apply list_lookup_insert_eq. eapply lookup_lt_Some; eauto.
  - rewrite decide_False by done. apply list_lookup_insert_eq.
    rewrite length_insert. eapply lookup_lt_Some; eauto.
  - intros m Hmi Hmj. by rewrite !list_lookup_insert_ne.
Qed.

(** C3, as stated, fails. On the initial 3-disk state the call
    [move(1, 0, 5)] raises (the subscript 5 names no peg) although none of
    the three listed rules is broken: disk 1 is on peg 0, it is the top disk
    of peg 0, and no peg 5 exists whose top disk could be smaller. *)
Lemma move_raises_without_listed_rule :
  raises (move (init 3) 1 0 5) /\ ~ breaks_rule (init 3) 1 0 5.
Proof.
  split; [exact I|].
  intros [Hr | [Hr | (dst & top & Hd & _)]].
  - apply (Hr [3; 2; 1]); [reflexivity|]. set_solver.
  - by apply (Hr [3; 2; 1]).
  - discriminate Hd.
Qed.

(** C3, amended. For every Hanoi state and action [disk, from_peg, to_peg],
    [HanoiState.move] raises an error if and only if the disk is not on
    [from_peg], or is not the top disk of [from_peg], or the top disk of
    [to_peg] is smaller than the moved disk, or [to_peg] names no peg of the
    state. When it does not raise it removes the disk from the top of
    [from_peg] and places it on top of [to_peg], leaving every other peg and
    the number of disks unchanged (the state is as before when the two
    subscripts name the same peg). *)
Theorem move_raises_iff_rule_broken s disk from_peg to_peg :
  (raises (move s disk from_peg to_peg) <->
     breaks_rule s disk from_peg to_peg \/ peg_at s to_peg = None)
  /\ (forall s', move s disk from_peg to_peg = Ok s' ->
        num_disks s' = num_disks s /\ length (pegs s') = length (pegs s)
        /\ exists i j src dst,
            py_index (pegs s) from_peg = Some i
            /\ py_index (pegs s) to_peg = Some j
            /\ pegs s !! i = Some (src ++ [disk]) /\ pegs s !! j = Some dst
            /\ (i = j -> pegs s' = pegs s)
            /\ (i <> j ->
                pegs s' !! i = Some src /\ pegs s' !! j = Some (dst ++ [disk])
                /\ forall m, m <> i -> m <> j -> pegs s' !! m = pegs s !! m)).
Proof.
  split; [|apply move_effect].
  split.
  - intros Hraise.
    destruct (move_break_or_Ok s disk from_peg to_peg) as [Hb | [s' Hs']];
      [done|].
    rewrite Hs' in Hraise. destruct Hraise.
  - intros Hb. apply raises_not_Ok. intros s' Hs'.
    by apply (move_Ok_no_break _ _ _ _ _ Hs').
Qed.

(** ** The list representation *)

Lemma to_list_from_list (ps : list (list Z)) : to_list (from_list ps) = ps.
Proof. unfold to_list, from_list. simpl. by rewrite !map_id. Qed.

Lemma len_nil_iff {A} (l : list A) : len l = 0 <-> l = [].
Proof. unfold len. destruct l; simpl; [done|]. split; [lia|done]. Qed.

Lemma len_nonneg {A} (l : list A) : 0 <= len l.
Proof. unfold len. lia. Qed.

(** C10. For every list [pegs] of three lists of integers,
    [HanoiState.from_list(pegs).to_list() == pegs], the constructed state's
    [num_disks] is the total number of disks on the three pegs, and
    [is_solved] on the constructed state holds exactly when pegs 0 and 1 are
    empty. *)
Theorem from_list_round_trip (p0 p1 p2 : list Z) :
  to_list (from_list [p0; p1; p2]) = [p0; p1; p2]
  /\ num_disks (from_list [p0; p1; p2]) = len p0 + len p1 + len p2
  /\ exists solved,
      is_solved (from_list [p0; p1; p2]) = Ok solved
      /\ (solved = true <-> p0 = [] /\ p1 = []).
Proof.
  split; [apply to_list_from_list|].
  split; [unfold from_list, total_len; simpl; lia|].
  eexists. split; [reflexivity|].
  rewrite bool_decide_eq_true, <- (len_nil_iff p0), <- (len_nil_iff p1).
  change (num_disks (from_list [p0; p1; p2]))
    with (0 + len p0 + len p1 + len p2).
  pose proof (len_nonneg p0). pose proof (len_nonneg p1). lia.
Qed.

End HanoiFacts.

(** ** Invariants of the state under [move] *)

Section Invariants.
Import Hanoi Rules.

Lemma elem_of_countdown n x : x ∈ countdown n <-> 1 <= x <= Z.of_nat n.
Proof.
  induction n as [|n IH].
  - simpl. rewrite elem_of_nil. lia.
  - change (countdown (S n)) with (Z.of_nat (S n) :: countdown n).
    rewrite elem_of_cons, IH. lia.
Qed.

Lemma descending_countdown n : descending (countdown n).
Proof.
  induction n as [|n IH]; [constructor|].
  change (countdown (S n)) with (Z.of_nat (S n) :: countdown n).
  constructor; [done|].
  apply Forall_forall. intros x Hx%elem_of_countdown. lia.
Qed.

Lemma descending_NoDup peg : descending peg -> NoDup peg.
Proof.
  induction 1 as [|x peg _ IH Hall]; constructor; [|done].
  intros Hx. rewrite Forall_forall in Hall. specialize (Hall _ Hx). lia.
Qed.

Lemma descending_snoc_inv peg x :
  descending (peg ++ [x]) -> descending peg /\ forall y, y ∈ peg -> x < y.
Proof.
  intros (Hlt & Hpeg & _)%StronglySorted_app. split; [done|].
  intros y Hy. apply (Hlt y x Hy). set_solver.
Qed.

Lemma descending_snoc peg x :
  descending peg -> (forall y, y ∈ peg -> x < y) -> descending (peg ++ [x]).
Proof.
  intros Hpeg Hlt. apply StronglySorted_app. split_and!; [|done|].
  - intros y x' Hy ->%list_elem_of_singleton. by apply Hlt.
  - repeat constructor.
Qed.

Lemma init_well_formed n : well_formed n (init n).
Proof.
  split.
  - repeat constructor. apply descending_countdown.
  - unfold holds_disks. simpl. by rewrite !app_nil_r.
Qed.

(** Replacing one peg trades its disks for the new ones. *)
Lemma concat_insert_perm (ps : list (list Z)) i old new :
  ps !! i = Some old ->
  Permutation (concat (<[i := new]> ps) ++ old) (concat ps ++ new).
Proof.
  revert i. induction ps as [|p ps IH]; intros [|i] Hi; simplify_eq/=.
  - solve_Permutation.
  - rewrite <- !app_assoc. by rewrite (IH i Hi).
Qed.

Lemma elem_of_concat_lookup (ps : list (list Z)) i peg x :
  ps !! i = Some peg -> x ∈ peg -> x ∈ concat ps.
Proof.
  intros Hi Hx. apply list_elem_of_In, in_concat.
  exists peg. split; apply list_elem_of_In; [|done].
  by eapply list_elem_of_lookup_2.
Qed.

(** A disk lies on one peg only. *)
Lemma disk_on_one_peg (ps : list (list Z)) i j a b x :
  NoDup (concat ps) -> i <> j -> ps !! i = Some a -> ps !! j = Some b ->
  x ∈ a -> ~ x ∈ b.
Proof.
  revert i j. induction ps as [|p ps IH]; intros i j Hnd Hij Hi Hj Ha Hb.
  { by rewrite lookup_nil in Hi. }
  simpl in Hnd. apply NoDup_app in Hnd as (_ & Hdisj & Hnd).
  destruct i as [|i], j as [|j]; simplify_eq/=.
  - apply (Hdisj x Ha). by eapply elem_of_concat_lookup.
  - apply (Hdisj x Hb). by eapply elem_of_concat_lookup.
  - apply (IH i j); auto.
Qed.

Lemma holds_disks_NoDup n ps : holds_disks n ps -> NoDup (concat ps).
Proof.
  unfold holds_disks. intros ->. apply descending_NoDup, descending_countdown.
Qed.

(** One call of [move] that returns keeps the state well formed. *)
Lemma move_well_formed n s disk from_peg to_peg s' :
  well_formed n s -> move s disk from_peg to_peg = Ok s' -> well_formed n s'.
Proof.
  intros [Hdesc Hdisks]
    (i & j & src & dst & Hi & Hj & Hsrc & Hdst & Hb & ->)%move_Ok.
  destruct (decide (i = j)) as [<-|Hij].
  { unfold well_formed. simpl. rewrite list_insert_insert_eq.
    by rewrite list_insert_id. }
  pose proof (holds_disks_NoDup _ _ Hdisks) as Hnd.
  pose proof (Forall_lookup_1 _ _ _ _ Hdesc Hsrc) as [Hsrc' _]%descending_snoc_inv.
  pose proof (Forall_lookup_1 _ _ _ _ Hdesc Hdst) as Hdst'.
  assert (Hlookup : <[i := src]> (pegs s) !! j = Some dst)
    by by rewrite list_lookup_insert_ne.
  split; simpl.
  - apply Forall_insert; [by apply Forall_insert|].
    apply descending_snoc; [done|]. intros y Hy.
    assert (y <> disk) as Hne.
    { intros ->. apply (disk_on_one_peg _ i j _ _ disk Hnd Hij Hsrc Hdst);
        [set_solver|done]. }
    destruct (last dst) as [top|] eqn:Hl.
    2:{ apply last_None in Hl as ->. by apply elem_of_nil in Hy. }
    pose proof (proj1 (blocked_by_None _ _) Hb top Hl) as Hge.
    apply last_Some in Hl as [dst0 ->].
    apply descending_snoc_inv in Hdst' as [_ Hlt].
    apply elem_of_app in Hy as [Hy | ->%list_elem_of_singleton].
    + specialize (Hlt y Hy). lia.
    + lia.
  - unfold holds_disks in *. rewrite <- Hdisks.
    apply (Permutation_app_inv_r (dst ++ src ++ [disk])).
    pose proof (concat_insert_perm _ i _ src Hsrc) as H1.
    pose proof (concat_insert_perm _ j _ (dst ++ [disk]) Hlookup) as H2.
    transitivity
      ((concat (<[j := dst ++ [disk]]> (<[i := src]> (pegs s))) ++ dst)
         ++ (src ++ [disk])); [solve_Permutation|].
    rewrite H2.
    transitivity
      ((concat (<[i := src]> (pegs s)) ++ (src ++ [disk])) ++ (dst ++ [disk]));
      [solve_Permutation|].
    rewrite H1. solve_Permutation.
Qed.

Lemma moves_app s calls1 calls2 :
  moves s (calls1 ++ calls2) =
    (let* s1 := moves s calls1 in moves s1 calls2).
Proof.
  revert s. induction calls1 as [|[[d f] t] calls1 IH]; intros s; [done|].
  simpl. destruct (move s d f t); simpl; [apply IH|done].
Qed.

Lemma moves_well_formed n s calls s' :
  well_formed n s -> moves s calls = Ok s' -> well_formed n s'.
Proof.
  revert s. induction calls as [|[[d f] t] calls IH]; intros s Hwf; simpl.
  - by intros [= <-].
  - destruct (move s d f t) as [s1|] eqn:Hm; simpl; [|done].
    apply IH. by eapply move_well_formed.
Qed.

(** C9. Starting from [HanoiState(num_disks)] and applying any sequence of
    [HanoiState.move] calls that do not raise, in the final state and in
    every intermediate state (the state after any prefix of the calls) every
    peg is strictly decreasing from bottom to top and the three pegs
    together hold exactly the disks [1..num_disks], none duplicated or
    lost. *)
Theorem moves_keep_invariants n calls s' :
  moves (init n) calls = Ok s' ->
  forall m, exists s_m,
    moves (init n) (take m calls) = Ok s_m
    /\ Forall descending (pegs s_m)
    /\ Permutation (concat (pegs s_m)) (range_down n)
    /\ length (pegs s_m) = 3%nat
    /\ (forall x, x ∈ concat (pegs s_m) <-> 1 <= x <= n).
Proof.
  intros Hrun m.
  rewrite <- (take_drop m calls), moves_app in Hrun.
  destruct (moves (init n) (take m calls)) as [s_m|] eqn:Hm; [|done].
  exists s_m. split; [done|].
  destruct (moves_well_formed n _ _ _ (init_well_formed n) Hm) as [Hd Hp].
  split_and!; [done|done| |].
  - clear Hrun Hd Hp. revert s_m Hm.
    induction (take m calls) as [|[[d f] t] l IH] using rev_ind; intros s_m.
    + by intros [= <-].
    + rewrite moves_app. destruct (moves (init n) l) as [s1|]; [|done].
      simpl. destruct (move s1 d f t) as [s2|] eqn:Hmv; simpl; [|done].
      intros [= <-]. apply move_effect in Hmv as (_ & -> & _). by apply IH.
  - intros x. unfold holds_disks in Hp. rewrite Hp.
    unfold range_down. rewrite elem_of_countdown. lia.
Qed.

(** A run of three legal moves on three disks. *)
Lemma moves_keep_invariants_witness :
  exists s_m,
    moves (init 3) (take 2 [(1, 0, 2); (2, 0, 1); (1, 2, 1)]) = Ok s_m
    /\ Forall descending (pegs s_m)
    /\ Permutation (concat (pegs s_m)) (range_down 3)
    /\ length (pegs s_m) = 3%nat
    /\ (forall x, x ∈ concat (pegs s_m) <-> 1 <= x <= 3).
Proof.
  apply (moves_keep_invariants 3 [(1, 0, 2); (2, 0, 1); (1, 2, 1)]
           {| num_disks := 3; pegs := [[3]; [2; 1]; []] |}).
  reflexivity.
Defined.

End Invariants.

(** ** The ground truth *)

Section GroundTruth.
Import Hanoi Rules.

Lemma top_is_true peg d : top_is peg d = true <-> last peg = Some d.
Proof.
  unfold top_is. destruct (last peg) as [x|]; [|done].
  rewrite bool_decide_eq_true. naive_solver.
Qed.

(** The first loop stops at the first peg that has disk 1 on top. *)
Lemma find_disk1_first idx (rest : list (list Z)) k peg :
  rest !! k = Some peg -> last peg = Some 1 ->
  (forall k' peg', (k' < k)%nat -> rest !! k' = Some peg' -> last peg' <> Some 1) ->
  find_disk1 idx rest = Some (idx + Z.of_nat k).
Proof.
  revert idx k. induction rest as [|p rest IH]; intros idx k Hk Hl Hfirst.
  { by rewrite lookup_nil in Hk. }
  simpl. destruct k as [|k]; simplify_eq/=.
  - rewrite (proj2 (top_is_true _ _) Hl). f_equal. lia.
  - destruct (top_is p 1) eqn:Hp.
    + apply top_is_true in Hp. by destruct (Hfirst 0%nat p ltac:(lia) eq_refl).
    + rewrite (IH (idx + 1) k Hk Hl).
      * f_equal. lia.
      * intros k' peg' Hlt Hk'. apply (Hfirst (S k') peg'); [lia|done].
Qed.

(** The first loop ends without a [break] exactly when no peg has disk 1 on
    top. *)
Lemma find_disk1_None idx (rest : list (list Z)) :
  find_disk1 idx rest = None <->
  forall k peg, rest !! k = Some peg -> last peg <> Some 1.
Proof.
  revert idx. induction rest as [|p rest IH]; intros idx; simpl.
  { split; [|done]. intros _ k peg. by rewrite lookup_nil. }
  destruct (top_is p 1) eqn:Hp.
  - split; [done|]. intros Hall. apply top_is_true in Hp.
    by destruct (Hall 0%nat p eq_refl).
  - rewrite IH. split.
    + intros Hall [|k] peg Hk; simplify_eq/=.
      * intros Hl%top_is_true. congruence.
      * by apply (Hall k).
    + intros Hall k peg Hk. by apply (Hall (S k)).
Qed.

Lemma on_top_unique (state : list (list Z)) p q d :
  NoDup (concat state) -> on_top state p d -> on_top state q d -> p = q.
Proof.
  intros Hnd (peg & Hp & Hpeg & Hl) (peg' & Hq & Hpeg' & Hl').
  destruct (decide (Z.to_nat p = Z.to_nat q)) as [|Hne]; [lia|].
  destruct (disk_on_one_peg _ _ _ _ _ d Hnd Hne Hpeg Hpeg');
    by eapply last_Some_elem_of.
Qed.

(** C8. For every Hanoi state in which disk 1 is the top disk of a peg [p]
    (the first such peg; the only one when no disk occurs twice, as in every
    valid state), [compute_hanoi_ground_truth] returns the clockwise disk-1
    move [[1, p, (p + 2) mod 3]]. The branch that searches for a legal move
    not involving disk 1 is reached only on states where disk 1 is not on
    top of any peg. *)
Theorem ground_truth_moves_disk1 (state : list (list Z)) (n : Z) :
  (forall p, on_top state p 1 ->
     (forall q, 0 <= q < p -> ~ on_top state q 1) ->
     compute_hanoi_ground_truth state n = Ok (Some [1; p; (p + 2) mod 3]))
  /\ (NoDup (concat state) -> forall p, on_top state p 1 ->
      compute_hanoi_ground_truth state n = Ok (Some [1; p; (p + 2) mod 3]))
  /\ (disk1_peg state = None <-> forall p, ~ on_top state p 1)
  /\ (disk1_peg state = None ->
      compute_hanoi_ground_truth state n = first_legal_move state 0 state).
Proof.
  assert (Hfirst : forall p, on_top state p 1 ->
     (forall q, 0 <= q < p -> ~ on_top state q 1) ->
     compute_hanoi_ground_truth state n = Ok (Some [1; p; (p + 2) mod 3])).
  { intros p (peg & Hp & Hpeg & Hl) Hq.
    unfold compute_hanoi_ground_truth, disk1_peg.
    rewrite (find_disk1_first 0 state (Z.to_nat p) peg Hpeg Hl).
    - by replace (0 + Z.of_nat (Z.to_nat p)) with p by lia.
    - intros k' peg' Hlt Hk' Hl'. apply (Hq (Z.of_nat k')); [lia|].
      exists peg'. rewrite Nat2Z.id. split_and!; [lia|done|done]. }
  split_and!; [done| | |].
  - intros Hnd p Hp. apply Hfirst; [done|].
    intros q Hq Hq'. pose proof (on_top_unique _ _ _ _ Hnd Hp Hq'). lia.
  - unfold disk1_peg. rewrite find_disk1_None. split.
    + intros Hall p (peg & _ & Hpeg & Hl). by apply (Hall _ _ Hpeg).
    + intros Hall k peg Hk Hl. apply (Hall (Z.of_nat k)).
      exists peg. rewrite Nat2Z.id. split_and!; [lia|done|done].
  - intros Hd. unfold compute_hanoi_ground_truth. by rewrite Hd.
Qed.

(** Disk 1 on peg 2 of a 3-disk state: the move is [[1, 2, 1]]. *)
Lemma ground_truth_moves_disk1_witness :
  compute_hanoi_ground_truth [[3; 2]; []; [1]] 3 = Ok (Some [1; 2; (2 + 2) mod 3]).
Proof.
  apply (proj1 (ground_truth_moves_disk1 [[3; 2]; []; [1]] 3) 2).
  - exists [1]. split_and!; [lia|reflexivity|reflexivity].
  - intros q Hq (peg & _ & Hpeg & Hl).
    assert (q = 0 \/ q = 1) as [-> | ->] by lia; simpl in Hpeg; by simplify_eq.
Defined.

End GroundTruth.

(** ** The terminal validator *)

Section Validator.
Import Hanoi Rules.
Context {A : Type}.

Lemma validator_num_disks_three (p0 p1 p2 : list Z) :
  validator_num_disks [p0; p1; p2] = Z.max (Z.max (len p0) (len p1)) (len p2).
Proof.
  unfold validator_num_disks.
  change (total_len [[]; []; []]) with 0. cbn [fold_left].
  pose proof (len_nonneg p0). lia.
Qed.

(** What the validator decides on a three-peg state: peg 2 is at least as
    long as the other two pegs and the number of actions is [2 ^ m - 1] for
    the length [m] of peg 2. *)
Lemma hanoi_validator_decides (p0 p1 p2 : list Z) (actions : list A) :
  exists ok reason,
    hanoi_validator [p0; p1; p2] actions = Ok (ok, reason)
    /\ (ok = true <->
        len p0 <= len p2 /\ len p1 <= len p2
        /\ len actions = 2 ^ len p2 - 1).
Proof.
  unfold hanoi_validator. rewrite validator_num_disks_three.
  change (py_get [p0; p1; p2] 2) with (Ok p2). simpl.
  case_bool_decide as Hd; simpl.
  - rewrite <- Hd. case_bool_decide as Hm; simpl; eexists _, _;
      (split; [reflexivity|]).
    + split; [intros _; lia|done].
    + split; [done|]. by intros (_ & _ & Hlen).
  - eexists _, _. split; [reflexivity|]. split; [done|]. lia.
Qed.

(** The validator accepts every solved state with the right number of
    moves. *)
Lemma hanoi_validator_solved (p2 : list Z) (actions : list A) :
  len actions = 2 ^ len p2 - 1 ->
  hanoi_validator [[]; []; p2] actions = Ok (true, "").
Proof.
  intros Hlen. unfold hanoi_validator. rewrite validator_num_disks_three.
  change (py_get [[]; []; p2] 2) with (Ok p2). simpl.
  pose proof (len_nonneg p2).
  rewrite bool_decide_eq_true_2 by (change (@len Z []) with 0; lia). simpl.
  rewrite Z.max_r by (change (@len Z []) with 0; lia).
  by rewrite bool_decide_eq_true_2.
Qed.

End Validator.

(** C2, the code departs from the claim. Three legal moves lead from
    [[2, 1], [], [3]] to [[1], [], [3, 2]], where disk 1 still lies on
    peg 0; on this final state and these three actions [hanoi_validator]
    returns [(True, "")]. It compares the length of peg 2 with the length of
    the longest peg, not with the number of disks of the puzzle. *)
Theorem hanoi_validator_accepts_unsolved :
  Rules.moves (Hanoi.from_list [[2; 1]; []; [3]]) [(1, 0, 1); (2, 0, 2); (1, 1, 0)]
    = Ok (Hanoi.from_list [[1]; []; [3; 2]])
  /\ Hanoi.hanoi_validator [[1]; []; [3; 2]] [[1; 0; 1]; [2; 0; 2]; [1; 1; 0]]
     = Ok (true, "")
  /\ Hanoi.is_solved (Hanoi.from_list [[1]; []; [3; 2]]) = Ok false.
Proof. split_and!; reflexivity. Qed.

(** ** The Voter *)

Section VoterFacts.
Import Mdap.
Context {Cand : Type} `{Countable Cand}.
Implicit Types (c w : Cand) (t : gmap Cand nat) (cfg : VoterConfig)
  (draw : nat -> Sample Cand).

Lemma votes_for_add_vote c c' t :
  votes_for c' (add_vote c t) =
    if decide (c' = c) then S (votes_for c t) else votes_for c' t.
Proof.
  unfold add_vote, votes_for at 1. case_decide as Hc.
  - subst. by rewrite lookup_insert_eq.
  - by rewrite lookup_insert_ne.
Qed.

Lemma count_votes_snoc c c' (l : list Cand) :
  count_votes c' (l ++ [c]) =
    if decide (c' = c) then S (count_votes c' l) else count_votes c' l.
Proof.
  unfold count_votes. rewrite filter_app, length_app.
  rewrite filter_cons, filter_nil.
  destruct (decide (c = c')) as [->|Hne].
  - rewrite decide_True by done. simpl. by rewrite Nat.add_1_r.
  - rewrite decide_False by done. simpl. by rewrite Nat.add_0_r.
Qed.

Lemma tally_counts_start draw : tally_counts draw 0 ∅.
Proof. intros c. unfold votes_for. by rewrite lookup_empty. Qed.

Lemma tally_counts_rejected draw n t reason :
  draw n = Rejected reason -> tally_counts draw n t -> tally_counts draw (S n) t.
Proof. intros Hd Ht c. simpl. by rewrite Hd. Qed.

Lemma tally_counts_accepted draw n t c :
  draw n = Accepted c -> tally_counts draw n t ->
  tally_counts draw (S n) (add_vote c t).
Proof.
  intros Hd Ht c'. simpl. rewrite Hd, votes_for_add_vote, count_votes_snoc.
  case_decide; subst; by rewrite Ht.
Qed.

Lemma leader_Some (entries : list (Cand * nat)) w n :
  leader entries = Some (w, n) ->
  (w, n) ∈ entries /\ forall c m, (c, m) ∈ entries -> (m <= n)%nat.
Proof.
  unfold leader. intros Hl.
  destruct (list_find _ entries) as [[i e]|] eqn:Hfind; simplify_eq/=.
  apply list_find_Some in Hfind as (Hi & Hmax & _). simpl in Hmax.
  split; [by eapply list_elem_of_lookup_2|].
  intros c m Hc. rewrite Hmax. apply max_list_elem_of_le.
  apply list_elem_of_fmap. by exists (c, m).
Qed.

Lemma second_place_ge (entries : list (Cand * nat)) w c m :
  (c, m) ∈ entries -> c <> w -> (m <= second_place w entries)%nat.
Proof.
  intros Hc Hne. unfold second_place. apply max_list_elem_of_le.
  apply list_elem_of_fmap. exists (c, m). split; [done|].
  by apply list_elem_of_filter.
Qed.

(** A winner that the stopping rule names has met it. *)
Lemma decide_winner_Some cfg t w :
  decide_winner cfg t = Some w ->
  k cfg <= Z.of_nat (votes_for w t)
  /\ (first_to_k cfg = false -> forall c, c <> w ->
        k cfg <= Z.of_nat (votes_for w t) - Z.of_nat (votes_for c t)).
Proof.
  unfold decide_winner.
  destruct (leader (map_to_list t)) as [[w' n]|] eqn:Hl; [|done].
  apply leader_Some in Hl as [Hw _].
  apply elem_of_map_to_list in Hw.
  assert (votes_for w' t = n) as Hn by (unfold votes_for; by rewrite Hw).
  destruct (first_to_k cfg).
  - case_decide; [|done]. intros [= <-]. by rewrite Hn.
  - case_decide as Hk; [|done]. intros [= <-]. rewrite Hn.
    split; [lia|]. intros _ c Hc.
    assert (votes_for c t <= second_place w' (map_to_list t))%nat; [|lia].
    unfold votes_for at 1. destruct (t !! c) as [m|] eqn:Hm; simpl; [|lia].
    apply (second_place_ge _ _ c m); [|done]. by apply elem_of_map_to_list.
Qed.

(** The loop returns a winner only from the stopping rule, on a tally that
    counts the samples drawn, within the sample cap. *)
Lemma vote_loop_winner cfg draw fuel n votes t ctr w :
  tally_counts draw n t ->
  outcome (vote_loop cfg draw fuel n votes t ctr) = Winner w ->
  let r := vote_loop cfg draw fuel n votes t ctr in
  decide_winner cfg (tally r) = Some w
  /\ tally_counts draw (drawn r) (tally r)
  /\ (drawn r <= n + fuel)%nat.
Proof.
  revert n votes t ctr.
  induction fuel as [|fuel IH]; intros n votes t ctr Ht; simpl; [done|].
  case_decide; [done|].
  destruct (draw n) as [c|reason] eqn:Hd.
  - destruct (decide_winner cfg (add_vote c t)) as [w'|] eqn:Hw; simpl.
    + intros [= <-]. split_and!; [done| |lia].
      by apply tally_counts_accepted.
    + intros Hout.
      destruct (IH (S n) (S votes) (add_vote c t) (count_sample (Accepted c) ctr))
        as (? & ? & Hle); [by apply tally_counts_accepted|done|].
      split_and!; [done|done|].
      etrans; [exact Hle|lia].
  - intros Hout.
    destruct (IH (S n) votes t (count_sample (@Rejected Cand reason) ctr))
      as (? & ? & Hle); [by eapply tally_counts_rejected|done|].
    split_and!; [done|done|].
    etrans; [exact Hle|lia].
Qed.

Lemma bad_config_false cfg :
  bad_config cfg = false ->
  0 < k cfg /\ (0 < max_votes cfg)%nat /\ (0 < max_samples cfg)%nat.
Proof.
  unfold bad_config. intros Hb.
  apply orb_false_iff in Hb as [[Hk Hv]%orb_false_iff Hs].
  apply bool_decide_eq_false in Hk.
  apply Nat.eqb_neq in Hv. apply Nat.eqb_neq in Hs. lia.
Qed.

(** C6. The Voter never declares a winner that has not met its stopping
    rule. At the moment of decision the tally holds, for every candidate,
    the number of accepted samples drawn for it; in first-to-k mode the
    winner's count is at least [k]; in first-to-ahead-by-k mode the winner's
    count exceeds the count of every other candidate by at least [k], and is
    at least [k] (the margin against a second place of 0). *)
Theorem voter_winner_met_stopping_rule cfg draw ctr w :
  outcome (vote cfg draw ctr) = Winner w ->
  let r := vote cfg draw ctr in
  let votes c := Z.of_nat (count_votes c (accepted_upto draw (drawn r))) in
  0 < k cfg
  /\ (drawn r <= max_samples cfg)%nat
  /\ (forall c, votes_for c (tally r) = count_votes c (accepted_upto draw (drawn r)))
  /\ k cfg <= votes w
  /\ (first_to_k cfg = false -> forall c, c <> w -> k cfg <= votes w - votes c).
Proof.
  unfold vote. destruct (bad_config cfg) eqn:Hcfg; [done|].
  apply bad_config_false in Hcfg as (Hk & _ & _).
  intros Hout.
  destruct (vote_loop_winner cfg draw (max_samples cfg) 0 0 ∅ ctr w
              (tally_counts_start draw) Hout) as (Hw & Ht & Hn).
  apply decide_winner_Some in Hw as [Hkw Hahead].
  split_and!; [done|done|done| |].
  - by rewrite <- Ht.
  - intros Hmode c Hc. rewrite <- !Ht. by apply Hahead.
Qed.

End VoterFacts.

(** ** A Step Runner that always returns the same candidate *)

Section Unopposed.
Import Mdap.
Context {Cand : Type} `{Countable Cand}.
Implicit Types (c : Cand) (cfg : VoterConfig).

Lemma add_vote_empty c : add_vote c ∅ = {[c := 1%nat]}.
Proof. unfold add_vote, votes_for. by rewrite lookup_empty, insert_empty. Qed.

Lemma add_vote_singleton c (n : nat) : add_vote c {[c := n]} = {[c := S n]}.
Proof.
  unfold add_vote, votes_for. rewrite lookup_singleton_eq. simpl.
  apply insert_singleton_eq.
Qed.

(** With a single candidate both stopping rules ask for [k] votes. *)
Lemma decide_winner_singleton cfg c (n : nat) :
  decide_winner cfg {[c := n]} =
    if decide (k cfg <= Z.of_nat n) then Some c else None.
Proof.
  unfold decide_winner. rewrite map_to_list_singleton.
  unfold leader, second_place. simpl.
  rewrite decide_True by lia. simpl.
  rewrite filter_cons.
  destruct (decide ((c, n).1 <> c)) as [Hc|_]; [by destruct Hc|].
  rewrite filter_nil. simpl. rewrite Z.sub_0_r.
  by destruct (first_to_k cfg).
Qed.

Lemma vote_loop_unopposed cfg c (d : nat) :
  forall (j fuel : nat) ctr,
    (j + d = Z.to_nat (k cfg))%nat -> (0 < d)%nat -> (d <= fuel)%nat ->
    (Z.to_nat (k cfg) <= max_votes cfg)%nat ->
    outcome (vote_loop cfg (fun _ => Accepted c) fuel j j
               (match j with O => ∅ | S _ => {[c := j]} end) ctr) = Winner c.
Proof.
  induction d as [|d IH]; intros j fuel ctr Hj Hd Hfuel Hvotes; [lia|].
  destruct fuel as [|fuel]; [lia|]. simpl.
  rewrite decide_False by lia.
  assert (add_vote c (match j with O => ∅ | S _ => {[c := j]} end)
          = {[c := S j]}) as ->.
  { destruct j; [apply add_vote_empty|apply add_vote_singleton]. }
  rewrite decide_winner_singleton.
  destruct (decide (d = 0)%nat) as [->|Hd'].
  - by rewrite decide_True by lia.
  - rewrite decide_False by lia.
    apply (IH (S j) fuel); lia.
Qed.

(** The Voter resolves to the candidate that every sample proposes. *)
Lemma vote_unopposed cfg c ctr :
  caps_allow_k cfg -> outcome (vote cfg (fun _ => Accepted c) ctr) = Winner c.
Proof.
  intros (Hcfg & Hv & Hs). unfold vote. rewrite Hcfg.
  apply bad_config_false in Hcfg as (Hk & _ & _).
  apply (vote_loop_unopposed cfg c (Z.to_nat (k cfg)) 0); lia.
Qed.

End Unopposed.

(** ** The Executor *)

Section ExecutorFacts.
Import Mdap.
Context {State Action Meta : Type}.
Context `{Countable State, Countable Action}.
Context (adapter : DomainAdapter State Action Meta).
Implicit Types (cfg : VoterConfig) (runner : Runner State Action Meta)
  (ctr : Counters).

Lemma count_sample_balanced {C} (smp : Sample C) ctr :
  balanced ctr -> balanced (count_sample smp ctr).
Proof. unfold balanced. destruct smp; simpl; lia. Qed.

Lemma counters_after_balanced {C} (draw : nat -> Sample C) ctr m :
  balanced ctr -> balanced (counters_after draw ctr m).
Proof.
  intros Hb. induction m as [|m IH]; [done|].
  simpl. by apply count_sample_balanced.
Qed.

(** The counters that a voting round returns are the counters after the
    samples it drew. *)
Lemma vote_loop_counters cfg (draw : nat -> Sample (Action * State))
    fuel n votes t ctr0 :
  counters (vote_loop cfg draw fuel n votes t (counters_after draw ctr0 n)) =
  counters_after draw ctr0
    (drawn (vote_loop cfg draw fuel n votes t (counters_after draw ctr0 n))).
Proof.
  revert n votes t. induction fuel as [|fuel IH]; intros n votes t; [done|].
  cbn [vote_loop]. case_decide; [done|].
  change (count_sample (draw n) (counters_after draw ctr0 n))
    with (counters_after draw ctr0 (S n)).
  destruct (draw n) as [c|reason].
  - destruct (decide_winner cfg (add_vote c t)); [done|]. apply (IH (S n)).
  - apply (IH (S n)).
Qed.

Lemma vote_counters cfg (draw : nat -> Sample (Action * State)) ctr :
  counters (vote cfg draw ctr) =
  counters_after draw ctr (drawn (vote cfg draw ctr)).
Proof.
  unfold vote. destruct (bad_config cfg); [done|].
  apply (vote_loop_counters cfg draw (max_samples cfg) 0 0 ∅ ctr).
Qed.

Lemma vote_balanced cfg (draw : nat -> Sample (Action * State)) ctr :
  balanced ctr -> balanced (counters (vote cfg draw ctr)).
Proof. intros Hb. rewrite vote_counters. by apply counters_after_balanced. Qed.

Lemma run_steps_balanced cfg runner num_steps remaining st prev acts ctr log :
  balanced ctr ->
  Forall (fun p => balanced (progress_counters p)) log ->
  let r := run_steps adapter cfg runner num_steps remaining st prev acts ctr log in
  balanced (result_counters r)
  /\ Forall (fun p => balanced (progress_counters p)) (progress r).
Proof.
  revert st prev acts ctr log.
  induction remaining as [|remaining IH]; intros st prev acts ctr log Hb Hlog; simpl.
  - destruct (validator st acts) as [[[] ?]|]; done.
  - match goal with |- context [vote cfg ?d ctr] => set (r := vote cfg d ctr) end.
    assert (balanced (counters r)) as Hr by by apply vote_balanced.
    assert (Forall (fun p => balanced (progress_counters p))
              (log ++ [mkProgress (num_steps - S remaining) (tally r) (counters r)]))
      as Hlog'.
    { apply Forall_app. split; [done|]. by constructor. }
    destruct (outcome r) as [[a st']| |]; [|done|done].
    destruct (transition st a) as [st2|]; [|done].
    by apply IH.
Qed.

(** C7. After every Voter invocation during an execution the counters
    satisfy [total_valid_samples + total_red_flagged == total_samples]: in
    the final result, in the running counters reported after every step, and
    within a voting round after every single sample, the counters of a round
    being those after the samples it drew. *)
Theorem counters_balanced_throughout cfg runner initial_state num_steps :
  let r := run_task adapter cfg runner initial_state num_steps in
  balanced (result_counters r)
  /\ Forall (fun p => balanced (progress_counters p)) (progress r)
  /\ (forall (draw : nat -> Sample (Action * State)) ctr,
        balanced ctr ->
        (forall m, balanced (counters_after draw ctr m))
        /\ counters (vote cfg draw ctr) =
             counters_after draw ctr (drawn (vote cfg draw ctr))
        /\ balanced (counters (vote cfg draw ctr))).
Proof.
  split_and!.
  - by apply run_steps_balanced.
  - by apply run_steps_balanced.
  - intros draw ctr Hb. split_and!.
    + intros m. by apply counters_after_balanced.
    + apply vote_counters.
    + by apply vote_balanced.
Qed.

(** Under a Step Runner that always returns the correct candidate, what the
    run accepts and where it ends does not depend on the configuration of the
    Voter, as long as its caps leave room for [k] votes. *)
Lemma run_steps_always cfg1 cfg2 correct num_steps remaining st prev acts
    ctr1 ctr2 log1 log2 :
  caps_allow_k cfg1 -> caps_allow_k cfg2 ->
  let r1 := run_steps adapter cfg1 (always correct) num_steps remaining st prev
              acts ctr1 log1 in
  let r2 := run_steps adapter cfg2 (always correct) num_steps remaining st prev
              acts ctr2 log2 in
  actions r1 = actions r2 /\ success r1 = success r2
  /\ final_state r1 = final_state r2 /\ status r1 = status r2.
Proof.
  intros Hc1 Hc2. revert st prev acts ctr1 ctr2 log1 log2.
  induction remaining as [|remaining IH];
    intros st prev acts ctr1 ctr2 log1 log2.
  - simpl. destruct (validator st acts) as [[[] ?]|]; done.
  - cbn [run_steps].
    set (input := mkStepInput (num_steps - S remaining)%nat num_steps st
                    (mkMetadata (state_builder st) prev)).
    change (always correct input)
      with (fun _ : nat => @Accepted (Action * State) (correct input)).
    pose proof (vote_unopposed cfg1 (correct input) ctr1 Hc1) as Hv1.
    pose proof (vote_unopposed cfg2 (correct input) ctr2 Hc2) as Hv2.
    destruct (vote cfg1 (fun _ => Accepted (correct input)) ctr1)
      as [o1 t1 d1 c1].
    destruct (vote cfg2 (fun _ => Accepted (correct input)) ctr2)
      as [o2 t2 d2 c2].
    simpl in Hv1, Hv2. subst o1 o2. cbn [outcome tally counters].
    destruct (correct input) as [a st'].
    destruct (transition st a) as [st2|]; [apply IH|done].
Qed.

End ExecutorFacts.

(** A voting round of the default configuration in which the second sample
    dissents: the winner is decided at the fifth sample, four votes to one. *)
Lemma voter_winner_met_stopping_rule_witness :
  let draw := fun n : nat => if Nat.eqb n 1 then Mdap.Accepted 9 else Mdap.Accepted 7 in
  let r := Mdap.vote Demo.default_config draw Mdap.no_samples in
  let votes c := Z.of_nat (Mdap.count_votes c (Mdap.accepted_upto draw (Mdap.drawn r))) in
  0 < Mdap.k Demo.default_config
  /\ (Mdap.drawn r <= Mdap.max_samples Demo.default_config)%nat
  /\ (forall c, Mdap.votes_for c (Mdap.tally r)
                = Mdap.count_votes c (Mdap.accepted_upto draw (Mdap.drawn r)))
  /\ Mdap.k Demo.default_config <= votes 7
  /\ (Mdap.first_to_k Demo.default_config = false ->
      forall c, c <> 7 -> Mdap.k Demo.default_config <= votes 7 - votes c).
Proof.
  apply (voter_winner_met_stopping_rule Demo.default_config
           (fun n : nat => if Nat.eqb n 1 then Mdap.Accepted 9 else Mdap.Accepted 7)
           Mdap.no_samples 7).
  vm_compute. reflexivity.
Defined.

(** ** The demo on three disks *)

Section DemoFacts.
Import Hanoi Mdap Demo.

Lemma default_config_caps : caps_allow_k default_config.
Proof. unfold caps_allow_k. simpl. split_and!; [reflexivity|lia|lia]. Qed.

(** C1, as stated, fails. When every step's winner is the move of the
    strategy, the run of the 3-disk task ends in [[[], [], [3, 2, 1]]] (pegs
    are stored bottom first), not in [[[], [], [1, 2, 3]]]. When every
    step's winner is the move of [compute_hanoi_ground_truth], the run makes
    7 moves of disk 1, ends in [[[3, 2], [], [1]]] and reports failure. *)
Lemma hanoi_3_disks_run_not_as_claimed :
  let r := run_full_task default_config (always strategy_candidate) 3 in
  let g := run_full_task default_config (always (ground_truth_candidate 3)) 3 in
  final_state r = [[]; []; [3; 2; 1]]
  /\ final_state r <> [[]; []; [1; 2; 3]]
  /\ length (actions g) = 7%nat
  /\ final_state g = [[3; 2]; []; [1]]
  /\ final_state g <> [[]; []; [1; 2; 3]]
  /\ success g = false.
Proof. vm_compute. split_and!; done. Qed.

(** C1, amended. For the 3-disk Hanoi task of 7 steps in which every step's
    winning candidate is the move given by the strategy of the prompt
    (disk 1 clockwise, then the legal move that does not involve disk 1, in
    turn), under every Voter configuration whose caps leave room for [k]
    votes, the run produces exactly 7 accepted actions, ends with the final
    state [[[], [], [3, 2, 1]]] (each peg listed bottom to top) and reports
    [success = true]. *)
Theorem hanoi_3_disks_strategy_run cfg :
  caps_allow_k cfg ->
  let r := run_full_task cfg (always strategy_candidate) 3 in
  actions r = [[1; 0; 2]; [2; 0; 1]; [1; 2; 1]; [3; 0; 2];
               [1; 1; 0]; [2; 1; 2]; [1; 0; 2]]
  /\ length (actions r) = 7%nat
  /\ final_state r = [[]; []; [3; 2; 1]]
  /\ success r = true
  /\ status r = Succeeded.
Proof.
  intros Hc.
  destruct (run_steps_always hanoi_adapter cfg default_config strategy_candidate
              7 7 (to_list (init 3)) None [] no_samples no_samples [] []
              Hc default_config_caps) as (Ha & Hs & Hf & Hst).
  unfold run_full_task, run_task.
  change (Z.to_nat (2 ^ 3 - 1)) with 7%nat. cbv zeta.
  rewrite Ha, Hs, Hf, Hst. clear. vm_compute. split_and!; reflexivity.
Qed.

(** The run under the defaults of the command line. *)
Lemma hanoi_3_disks_strategy_run_witness :
  let r := run_full_task default_config (always strategy_candidate) 3 in
  actions r = [[1; 0; 2]; [2; 0; 1]; [1; 2; 1]; [3; 0; 2];
               [1; 1; 0]; [2; 1; 2]; [1; 0; 2]]
  /\ length (actions r) = 7%nat
  /\ final_state r = [[]; []; [3; 2; 1]]
  /\ success r = true
  /\ status r = Succeeded.
Proof.
  apply (hanoi_3_disks_strategy_run default_config).
  unfold caps_allow_k. simpl. split_and!; [reflexivity|lia|lia].
Defined.

End DemoFacts.

(** ** The scanner against the patterns *)

Section ScanFacts.
Import Scan.
Implicit Types (s r w p : list ascii) (c : ascii).

Lemma span_spec f s a b :
  span f s = (a, b) <->
  s = a ++ b /\ Forall (fun c => f c = true) a /\ stops f b.
Proof.
  revert a b. induction s as [|c s IH]; intros a b; simpl.
  - split.
    + intros [= <- <-]. by repeat split.
    + intros (Hs & _ & _). symmetry in Hs.
      apply app_eq_nil in Hs as [-> ->]. done.
  - destruct (f c) eqn:Hc.
    + destruct (span f s) as [a' b'] eqn:Hsp.
      destruct (IH a' b') as [IH1 _]. destruct (IH1 eq_refl) as (-> & Ha' & Hb').
      split.
      * intros [= <- <-]. by repeat constructor.
      * intros (Hs & Ha & Hb). destruct a as [|c' a]; simpl in Hs.
        { subst b. simpl in Hb. congruence. }
        injection Hs as <- Hs. apply Forall_cons in Ha as [_ Ha].
        assert ((a', b') = (a, b)) as Heq by by apply IH.
        by injection Heq as -> ->.
    + split.
      * intros [= <- <-]. by repeat split.
      * intros (Hs & Ha & Hb). destruct a as [|c' a]; simpl in Hs.
        { by subst b. }
        injection Hs as <- Hs. apply Forall_cons in Ha as [Ha _]. congruence.
Qed.

Lemma skip_ws_spec s r :
  skip_ws s = r <-> exists ws, s = ws ++ r /\ spaces ws /\ stops is_space r.
Proof.
  unfold skip_ws. destruct (span is_space s) as [a b] eqn:Hsp. simpl. split.
  - intros <-. exists a. by apply span_spec.
  - intros (ws & Hs & Hws & Hr).
    assert (span is_space s = (ws, r)) as Heq by by apply span_spec.
    congruence.
Qed.

Lemma digits_spec s d r :
  digits s = Some (d, r) <-> s = d ++ r /\ number d /\ stops is_digit r.
Proof.
  unfold digits, number. destruct (span is_digit s) as [a b] eqn:Hsp. split.
  - destruct a as [|c a]; [done|]. intros [= <- <-].
    apply span_spec in Hsp as (? & ? & ?). done.
  - intros (Hs & [Hne Hd] & Hr).
    assert (span is_digit s = (d, r)) as Heq by by apply span_spec.
    rewrite Hsp in Heq. injection Heq as -> ->. by destruct d.
Qed.

Lemma lit_ci_spec p s r :
  lit_ci p s = Some r <-> exists w, s = w ++ r /\ same_ci w p.
Proof.
  unfold same_ci. revert s. induction p as [|a p IH]; intros s; simpl.
  - split.
    + intros [= ->]. by exists [].
    + intros (w & -> & Hw). by destruct w.
  - destruct s as [|c s].
    + split; [done|]. intros ([|] & ? & ?); done.
    + case_bool_decide as Hc.
      * rewrite IH. split.
        -- intros (w & -> & Hw). exists (c :: w). simpl. by rewrite Hc, Hw.
        -- intros ([|c' w] & Hs & Hw); simplify_eq/=. by exists w.
      * split; [done|]. intros ([|c' w] & Hs & Hw); simplify_eq/=.
Qed.

(** The punctuation is neither white space nor a digit, and folds to
    itself only. *)
Lemma punct_class c :
  punct c -> is_space c = false /\ is_digit c = false.
Proof.
  unfold punct. intros Hc.
  repeat (apply elem_of_cons in Hc as [->|Hc]); [done..|].
  by apply elem_of_nil in Hc.
Qed.

Lemma punct_fold c c' : punct c -> lower c' = lower c -> c' = c.
Proof.
  unfold punct. intros Hc.
  repeat (apply elem_of_cons in Hc as [->|Hc]);
    [destruct c' as [[] [] [] [] [] [] [] []]; vm_compute; congruence..|].
  by apply elem_of_nil in Hc.
Qed.

Lemma digit_not_space c : is_digit c = true -> is_space c = false.
Proof. destruct c as [[] [] [] [] [] [] [] []]; vm_compute; congruence. Qed.

Lemma lit_ci_punct c s r : punct c -> lit_ci [c] s = Some r <-> s = c :: r.
Proof.
  intros Hc. rewrite lit_ci_spec. unfold same_ci. split.
  - intros ([|c' [|]] & -> & Hw); simplify_eq/=.
    f_equal. by apply punct_fold.
  - intros ->. by exists [c].
Qed.

Lemma punct_eq : punct "="%char.
Proof. unfold punct. simpl. set_solver. Qed.
Lemma punct_open : punct "["%char.
Proof. unfold punct. simpl. set_solver. Qed.
Lemma punct_comma : punct ","%char.
Proof. unfold punct. simpl. set_solver. Qed.
Lemma punct_close : punct "]"%char.
Proof. unfold punct. simpl. set_solver. Qed.

#[local] Arguments chars : simpl never.
#[local] Arguments lit_ci : simpl never.
#[local] Arguments skip_ws : simpl never.
#[local] Arguments digits : simpl never.

(** The greedy steps of the matcher, forwards. *)

Lemma ws_then_punct c ws r :
  punct c -> spaces ws -> skip_ws (ws ++ c :: r) = c :: r.
Proof.
  intros Hc Hws. apply skip_ws_spec. exists ws. split_and!; [done|done|].
  simpl. by apply punct_class.
Qed.

Lemma ws_then_number ws d r :
  spaces ws -> number d -> skip_ws (ws ++ d ++ r) = d ++ r.
Proof.
  intros Hws [Hne Hd]. apply skip_ws_spec. exists ws. split_and!; [done|done|].
  destruct d as [|c d]; [done|]. simpl.
  apply Forall_cons in Hd as [Hc _]. by apply digit_not_space.
Qed.

Lemma number_then_punct d c r :
  number d -> punct c -> digits (d ++ c :: r) = Some (d, c :: r).
Proof.
  intros Hd Hc. apply digits_spec. split_and!; [done|done|].
  simpl. by apply punct_class.
Qed.

(** The same steps, backwards. *)

Lemma skip_punct_inv c s r :
  punct c -> lit_ci [c] (skip_ws s) = Some r ->
  exists ws, s = ws ++ c :: r /\ spaces ws.
Proof.
  intros Hc Hl. apply lit_ci_punct in Hl; [|done].
  apply skip_ws_spec in Hl as (ws & ? & ? & _). eauto.
Qed.

Lemma skip_digits_inv s d r :
  digits (skip_ws s) = Some (d, r) ->
  exists ws, s = ws ++ d ++ r /\ spaces ws /\ number d.
Proof.
  intros (Hs & Hd & _)%digits_spec.
  apply skip_ws_spec in Hs as (ws & ? & ? & _). eauto.
Qed.

(** The anchored matcher accepts exactly the instances of the move pattern
    at the start of the text, with their groups. *)
Lemma match_move_spec s d f t :
  match_move s = Some (d, f, t) <->
  exists m rest, s = m ++ rest /\ move_instance m d f t.
Proof.
  unfold match_move, move_instance.
  change (chars "=") with ["="%char]. change (chars "[") with ["["%char].
  change (chars ",") with [","%char]. change (chars "]") with ["]"%char].
  split.
  - destruct (lit_ci (chars "move") s) as [s1|] eqn:H1; simpl; [|done].
    destruct (lit_ci ["="%char] (skip_ws s1)) as [s2|] eqn:H2; simpl; [|done].
    destruct (lit_ci ["["%char] (skip_ws s2)) as [s3|] eqn:H3; simpl; [|done].
    destruct (digits s3) as [[d' s4]|] eqn:H4; simpl; [|done].
    destruct (lit_ci [","%char] s4) as [s5|] eqn:H5; simpl; [|done].
    destruct (digits (skip_ws s5)) as [[f' s6]|] eqn:H6; simpl; [|done].
    destruct (lit_ci [","%char] s6) as [s7|] eqn:H7; simpl; [|done].
    destruct (digits (skip_ws s7)) as [[t' s8]|] eqn:H8; simpl; [|done].
    destruct (lit_ci ["]"%char] s8) as [s9|] eqn:H9; simpl; [|done].
    intros [= <- <- <-].
    apply lit_ci_spec in H1 as (w & -> & Hw).
    apply (skip_punct_inv _ _ _ punct_eq) in H2 as (ws1 & -> & Hws1).
    apply (skip_punct_inv _ _ _ punct_open) in H3 as (ws2 & -> & Hws2).
    apply digits_spec in H4 as (-> & Hd & _).
    apply (lit_ci_punct _ _ _ punct_comma) in H5 as ->.
    apply skip_digits_inv in H6 as (ws3 & -> & Hws3 & Hf).
    apply (lit_ci_punct _ _ _ punct_comma) in H7 as ->.
    apply skip_digits_inv in H8 as (ws4 & -> & Hws4 & Ht).
    apply (lit_ci_punct _ _ _ punct_close) in H9 as ->.
    eexists _, s9. split; [|exists w, ws1, ws2, ws3, ws4; split_and!; try done].
    by flatten_app.
  - intros (m & rest & -> & w & ws1 & ws2 & ws3 & ws4 & -> & Hw & Hws1 & Hws2
            & Hws3 & Hws4 & Hd & Hf & Ht).
    flatten_app.
    assert (lit_ci (chars "move")
              (w ++ ws1 ++ "="%char :: ws2 ++ "["%char :: d ++ ","%char :: ws3
                 ++ f ++ ","%char :: ws4 ++ t ++ "]"%char :: rest)
            = Some (ws1 ++ "="%char :: ws2 ++ "["%char :: d ++ ","%char :: ws3
                      ++ f ++ ","%char :: ws4 ++ t ++ "]"%char :: rest)) as ->
      by (apply lit_ci_spec; eauto).
    repeat first
      [ rewrite (ws_then_punct _ _ _ punct_eq Hws1)
      | rewrite (ws_then_punct _ _ _ punct_open Hws2)
      | rewrite (number_then_punct _ _ _ Hd punct_comma)
      | rewrite (ws_then_number _ _ _ Hws3 Hf)
      | rewrite (number_then_punct _ _ _ Hf punct_comma)
      | rewrite (ws_then_number _ _ _ Hws4 Ht)
      | rewrite (number_then_punct _ _ _ Ht punct_close)
      | rewrite (proj2 (lit_ci_punct _ _ _ punct_eq) eq_refl)
      | rewrite (proj2 (lit_ci_punct _ _ _ punct_open) eq_refl)
      | rewrite (proj2 (lit_ci_punct _ _ _ punct_comma) eq_refl)
      | rewrite (proj2 (lit_ci_punct _ _ _ punct_close) eq_refl)
      | progress simpl ].
    done.
Qed.

Lemma upto_last_close_None s : upto_last_close s = None <-> ~ "]"%char ∈ s.
Proof.
  induction s as [|c s IH]; simpl.
  - split; [|done]. intros _ Hin. by apply elem_of_nil in Hin.
  - destruct (upto_last_close s) as [p|].
    + split; [done|]. intros Hn. exfalso.
      assert (~ "]"%char ∈ s) as Hs by (intros Hin; apply Hn; by right).
      apply IH in Hs. done.
    + case_bool_decide as Hc.
      * split; [done|]. intros Hn. destruct Hn. subst. by left.
      * split; [|done]. intros _ [Heq | Hin]%elem_of_cons; [done|].
        by apply (proj1 IH).
Qed.

(** [.*\]] takes everything up to the last closing bracket. *)
Lemma upto_last_close_Some s p :
  upto_last_close s = Some p <->
  exists body post,
    s = body ++ "]"%char :: post /\ p = body ++ ["]"%char] /\ ~ "]"%char ∈ post.
Proof.
  revert p. induction s as [|c s IH]; intros p; simpl.
  { split; [done|]. intros ([|] & ? & ? & _); done. }
  destruct (upto_last_close s) as [p'|] eqn:Hs.
  - split.
    + intros [= <-]. destruct (proj1 (IH p') eq_refl) as (body & post & -> & -> & Hp).
      by exists (c :: body), post.
    + intros ([|c' body] & post & Heq & -> & Hp); simplify_eq/=.
      * apply upto_last_close_None in Hp. congruence.
      * f_equal. f_equal.
        assert (Some p' = Some (body ++ ["]"%char])) as [= ->]; [|done].
        apply IH. by exists body, post.
  - apply upto_last_close_None in Hs. case_bool_decide as Hc.
    + subst c. split.
      * intros [= <-]. by exists [], s.
      * intros ([|c' body] & post & Heq & -> & Hp); simplify_eq/=; [done|].
        destruct Hs. apply elem_of_app. right. by left.
    + split; [done|].
      intros ([|c' body] & post & Heq & -> & Hp); simplify_eq/=.
      destruct Hs. apply elem_of_app. right. by left.
Qed.

(** The anchored matcher accepts exactly the instances of the next_state
    pattern at the start of the text that reach the last closing bracket. *)
Lemma match_state_spec s cap :
  match_state s = Some cap <->
  exists m post, s = m ++ post /\ state_instance m cap /\ ~ "]"%char ∈ post.
Proof.
  unfold match_state, state_instance.
  change (chars "=") with ["="%char]. change (chars "[") with ["["%char].
  change (chars "]") with ["]"%char].
  split.
  - intros (s1 & H1 & (s2 & H2 & (s3 & H3 & (body' & H4 & [= <-])%bind_Some
                                   )%bind_Some)%bind_Some)%bind_Some.
    apply lit_ci_spec in H1 as (w & -> & Hw).
    apply (skip_punct_inv _ _ _ punct_eq) in H2 as (ws1 & -> & Hws1).
    apply (skip_punct_inv _ _ _ punct_open) in H3 as (ws2 & -> & Hws2).
    apply upto_last_close_Some in H4 as (body & post & -> & -> & Hp).
    eexists _, post. split; [|split; [exists w, ws1, ws2, body|done]].
    2:{ split_and!; try done. }
    by flatten_app.
  - intros (m & post & -> & (w & ws1 & ws2 & body & -> & -> & Hw & Hws1 & Hws2)
            & Hp).
    flatten_app.
    rewrite (proj2 (lit_ci_spec (chars "next_state") _
      (ws1 ++ "="%char :: ws2 ++ "["%char :: body ++ "]"%char :: post)))
      by eauto.
    repeat first
      [ rewrite (ws_then_punct _ _ _ punct_eq Hws1)
      | rewrite (ws_then_punct _ _ _ punct_open Hws2)
      | rewrite (proj2 (lit_ci_punct _ _ _ punct_eq) eq_refl)
      | rewrite (proj2 (lit_ci_punct _ _ _ punct_open) eq_refl)
      | progress simpl ].
    rewrite (proj2 (upto_last_close_Some (body ++ "]"%char :: post)
                      (body ++ ["]"%char]))) by (by exists body, post).
    simpl. by flatten_app.
Qed.

(** Any instance of the next_state pattern makes the anchored matcher
    succeed, possibly with a longer group. *)
Lemma match_state_instance m cap post :
  state_instance m cap -> is_Some (match_state (m ++ post)).
Proof.
  intros (w & ws1 & ws2 & body & -> & -> & Hw & Hws1 & Hws2).
  destruct (upto_last_close (body ++ "]"%char :: post)) as [p|] eqn:Hp.
  2:{ apply upto_last_close_None in Hp. destruct Hp.
      apply elem_of_app. right. by left. }
  apply upto_last_close_Some in Hp as (body' & post' & Heq & -> & Hp).
  exists ("["%char :: body' ++ ["]"%char]). apply match_state_spec.
  exists (w ++ ws1 ++ "="%char :: ws2 ++ "["%char :: body' ++ ["]"%char]), post'.
  split_and!; [|by exists w, ws1, ws2, body'|done].
  change (chars "=") with ["="%char]. change (chars "[") with ["["%char].
  change (chars "]") with ["]"%char].
  flatten_app. do 5 f_equal. simpl in Heq. by rewrite Heq.
Qed.

(** [re.search] finds nothing exactly when the pattern matches at no
    position, and otherwise returns the match at the leftmost one. *)
Lemma re_search_None {R} (m : list ascii -> option R) s :
  re_search m s = None <-> forall pre post, s = pre ++ post -> m post = None.
Proof.
  induction s as [|c s IH]; simpl.
  - destruct (m []) eqn:Hm.
    + split; [done|]. intros Hall. by rewrite (Hall [] []) in Hm.
    + split; [|done]. intros _ pre post Heq. symmetry in Heq.
      by apply app_eq_nil in Heq as [-> ->].
  - destruct (m (c :: s)) eqn:Hm.
    + split; [done|]. intros Hall. by rewrite (Hall [] (c :: s)) in Hm.
    + rewrite IH. split.
      * intros Hall [|c' pre] post Heq; simplify_eq/=; [done|]. by eapply Hall.
      * intros Hall pre post ->. by apply (Hall (c :: pre)).
Qed.

Lemma re_search_Some {R} (m : list ascii -> option R) s (x : R) :
  re_search m s = Some x <->
  exists pre post,
    s = pre ++ post /\ m post = Some x
    /\ forall pre' post',
         s = pre' ++ post' -> (length pre' < length pre)%nat -> m post' = None.
Proof.
  induction s as [|c s IH]; simpl.
  - destruct (m []) eqn:Hm.
    + split.
      * intros [= <-]. exists [], []. split_and!; [done|done|].
        intros ? ? _ Hlt. simpl in Hlt. lia.
      * intros (pre & post & Heq & Hr & _). symmetry in Heq.
        apply app_eq_nil in Heq as [-> ->]. congruence.
    + split; [done|]. intros (pre & post & Heq & Hr & _). symmetry in Heq.
      apply app_eq_nil in Heq as [-> ->]. congruence.
  - destruct (m (c :: s)) eqn:Hm.
    + split.
      * intros [= <-]. exists [], (c :: s). split_and!; [done|done|].
        intros ? ? _ Hlt. simpl in Hlt. lia.
      * intros ([|c' pre] & post & Heq & Hr & Hleft); simplify_eq/=.
        -- congruence.
        -- specialize (Hleft [] (c' :: pre ++ post) eq_refl). simpl in Hleft.
           rewrite Hleft in Hm by lia. done.
    + rewrite IH. split.
      * intros (pre & post & -> & Hr & Hleft). exists (c :: pre), post.
        split_and!; [done|done|].
        intros [|c' pre'] post' Heq Hlt; simplify_eq/=; [done|].
        apply (Hleft pre' post'); [done|lia].
      * intros ([|c' pre] & post & Heq & Hr & Hleft); simplify_eq/=.
        exists pre, post. split_and!; [done|done|].
        intros pre' post' Heq Hlt.
        apply (Hleft (c' :: pre') post'); simpl; [by rewrite Heq|lia].
Qed.

(** What the two searches of the parser find. *)

Lemma search_move_None text :
  re_search match_move text = None <-> ~ contains_move text.
Proof.
  split.
  - intros Hn (pre & m & post & d & f & t & -> & Hi).
    rewrite re_search_None in Hn. specialize (Hn pre (m ++ post) eq_refl).
    assert (match_move (m ++ post) = Some (d, f, t)) as Hm
      by (apply match_move_spec; eauto).
    congruence.
  - intros Hc. destruct (re_search match_move text) as [[[d f] t]|] eqn:Hs; [|done].
    destruct Hc. apply re_search_Some in Hs as (pre & post & -> & Hm & _).
    apply match_move_spec in Hm as (m & rest & -> & Hi).
    by exists pre, m, rest, d, f, t.
Qed.

Lemma search_move_Some text d f t :
  re_search match_move text = Some (d, f, t) <-> first_move text d f t.
Proof.
  split.
  - intros (pre & post & -> & Hm & Hleft)%re_search_Some.
    apply match_move_spec in Hm as (m & rest & -> & Hi).
    exists pre, m, rest. split_and!; [done|done|].
    intros pre' m' post' d' f' t' Heq Hi'.
    destruct (decide (length pre <= length pre')%nat) as [|Hlt]; [done|].
    specialize (Hleft pre' (m' ++ post') Heq ltac:(lia)).
    assert (match_move (m' ++ post') = Some (d', f', t')) as Hm
      by (apply match_move_spec; eauto).
    congruence.
  - intros (pre & m & post & -> & Hi & Hleft). apply re_search_Some.
    exists pre, (m ++ post). split_and!; [done|apply match_move_spec; eauto|].
    intros pre' post' Heq Hlt.
    destruct (match_move post') as [[[d' f'] t']|] eqn:Hm'; [|done].
    apply match_move_spec in Hm' as (m' & rest' & -> & Hi').
    specialize (Hleft pre' m' rest' d' f' t' Heq Hi'). lia.
Qed.

Lemma search_state_None text :
  re_search match_state text = None <-> ~ contains_state text.
Proof.
  split.
  - intros Hn (pre & m & post & cap & -> & Hi).
    rewrite re_search_None in Hn. specialize (Hn pre (m ++ post) eq_refl).
    destruct (match_state_instance m cap post Hi) as [cap' Hm]. congruence.
  - intros Hc. destruct (re_search match_state text) as [cap|] eqn:Hs; [|done].
    destruct Hc. apply re_search_Some in Hs as (pre & post & -> & Hm & _).
    apply match_state_spec in Hm as (m & rest & -> & Hi & _).
    by exists pre, m, rest, cap.
Qed.

Lemma search_state_Some text cap :
  re_search match_state text = Some cap <-> captured_state text cap.
Proof.
  split.
  - intros (pre & post & -> & Hm & Hleft)%re_search_Some.
    apply match_state_spec in Hm as (m & rest & -> & Hi & Hrest).
    exists pre, m, rest. split_and!; [done|done|done|].
    intros pre' m' post' cap' Heq Hi'.
    destruct (decide (length pre <= length pre')%nat) as [|Hlt]; [done|].
    specialize (Hleft pre' (m' ++ post') Heq ltac:(lia)).
    destruct (match_state_instance m' cap' post' Hi') as [cap2 Hm]. congruence.
  - intros (pre & m & post & -> & Hi & Hpost & Hleft). apply re_search_Some.
    exists pre, (m ++ post).
    split_and!; [done|apply match_state_spec; eauto|].
    intros pre' post' Heq Hlt.
    destruct (match_state post') as [cap'|] eqn:Hm'; [|done].
    apply match_state_spec in Hm' as (m' & rest' & -> & Hi' & _).
    specialize (Hleft pre' m' rest' cap' Heq Hi'). lia.
Qed.


(** What [int] returns on a string of digits. *)

Lemma fold_decimal ds acc :
  fold_left (fun a c => 10 * a + (code c - 48)) ds acc
  = acc * 10 ^ Z.of_nat (length ds) + decimal ds.
Proof.
  revert acc. induction ds as [|c ds IH]; intros acc.
  - simpl. lia.
  - cbn [fold_left decimal length]. rewrite IH.
    rewrite Nat2Z.inj_succ, Z.pow_succ_r by lia. lia.
Qed.

Lemma int_of_digits_Ok d : convertible d -> int_of_digits d = Ok (decimal d).
Proof.
  unfold convertible, int_of_digits. intros Hd.
  rewrite decide_False by lia. f_equal. rewrite fold_decimal. lia.
Qed.

Lemma int_of_digits_Raise d :
  ~ convertible d -> exists msg, int_of_digits d = Raise (ValueError msg).
Proof.
  unfold convertible, int_of_digits. intros Hd.
  rewrite decide_True by lia. eauto.
Qed.

Lemma int_of_digits_inv d x :
  int_of_digits d = Ok x -> convertible d /\ x = decimal d.
Proof.
  intros Hx. destruct (decide (convertible d)) as [Hd|Hd].
  - rewrite (int_of_digits_Ok d Hd) in Hx. by injection Hx as <-.
  - destruct (int_of_digits_Raise d Hd) as [msg Hr]. congruence.
Qed.

Lemma decimal_nonneg d : Forall (fun c => is_digit c = true) d -> 0 <= decimal d.
Proof.
  induction 1 as [|c d Hc _ IH]; simpl; [done|].
  unfold is_digit in Hc. apply andb_true_iff in Hc as [? ?].
  assert (0 <= 10 ^ Z.of_nat (length d)) by (apply Z.pow_nonneg; lia).
  nia.
Qed.

End ScanFacts.

(** ** The response parser *)

Section ParserFacts.
Import Scan Parser.
Variable JSON : Type.
Variable json_loads : string -> result JSON.

#[local] Abbreviation parse := (parse_hanoi_response JSON json_loads).

(** The three conversions of the parser stop at the first number that [int]
    does not convert. *)
Lemma ints_Raise d f t {B} (k : Z -> Z -> Z -> result B) :
  ~ convertible3 d f t ->
  exists msg,
    (let* x := int_of_digits d in
     let* y := int_of_digits f in
     let* z := int_of_digits t in k x y z)
    = Raise (ValueError msg).
Proof.
  intros Hn. unfold convertible3 in Hn.
  destruct (decide (convertible d)) as [Hd|Hd].
  2:{ destruct (int_of_digits_Raise d Hd) as [msg ->]. by exists msg. }
  rewrite (int_of_digits_Ok d Hd). simpl.
  destruct (decide (convertible f)) as [Hf|Hf].
  2:{ destruct (int_of_digits_Raise f Hf) as [msg ->]. by exists msg. }
  rewrite (int_of_digits_Ok f Hf). simpl.
  destruct (decide (convertible t)) as [Ht|Ht]; [by destruct Hn|].
  destruct (int_of_digits_Raise t Ht) as [msg ->]. by exists msg.
Qed.

(** C5. [parse_hanoi_response] fails with an error on every text that
    cannot be interpreted: when the text holds no instance of the move
    pattern (three integers), when [int] does not convert one of the three
    numbers of the leftmost move (more digits than the limit of [int]), when
    the text holds no instance of the next_state pattern, and when
    [json.loads] raises on the captured next_state text. Otherwise it
    returns the pair of the action, whose three integers are the numbers
    that the groups of the leftmost move denote in decimal notation, and of
    the JSON value of the captured text. It returns a value on no other
    input. *)
Theorem parse_hanoi_response_fails_or_parses (raw_text : string) :
  let text := chars raw_text in
  (~ contains_move text -> parse raw_text = Raise (ValueError "move not found"))
  /\ (forall d f t, first_move text d f t -> ~ convertible3 d f t ->
        exists msg, parse raw_text = Raise (ValueError msg))
  /\ (forall d f t, first_move text d f t -> convertible3 d f t ->
        ~ contains_state text ->
        parse raw_text = Raise (ValueError "next_state not found"))
  /\ (forall d f t cap e, first_move text d f t -> convertible3 d f t ->
        captured_state text cap ->
        json_loads (string_of_list_ascii cap) = Raise e ->
        parse raw_text = Raise e)
  /\ (forall a v,
        parse raw_text = Ok (a, v) <->
        exists d f t cap,
          first_move text d f t /\ convertible3 d f t
          /\ a = [decimal d; decimal f; decimal t]
          /\ captured_state text cap
          /\ json_loads (string_of_list_ascii cap) = Ok v)
  /\ (raises (parse raw_text) <->
        ~ contains_move text
        \/ (exists d f t, first_move text d f t /\ ~ convertible3 d f t)
        \/ ~ contains_state text
        \/ exists cap e, captured_state text cap
                         /\ json_loads (string_of_list_ascii cap) = Raise e).
Proof.
  intros text. unfold parse_hanoi_response. fold text.
  destruct (re_search match_move text) as [[[d f] t]|] eqn:Hmove.
  2:{ apply search_move_None in Hmove.
      assert (forall d f t, ~ first_move text d f t) as Hnf.
      { intros d f t (pre & m & post & ? & ? & _). destruct Hmove.
        by exists pre, m, post, d, f, t. }
      split_and!; try done.
      - intros d f t Hf. by destruct (Hnf d f t).
      - intros d f t Hf. by destruct (Hnf d f t).
      - intros d f t cap e Hf. by destruct (Hnf d f t).
      - intros a v. split; [done|].
        intros (d & f & t & cap & Hf & _). by destruct (Hnf d f t).
      - split; [by left|done]. }
  assert (first_move text d f t) as Hfm by by apply search_move_Some.
  assert (contains_move text) as Hcm.
  { destruct Hfm as (pre & m & post & ? & ? & _). by exists pre, m, post, d, f, t. }
  assert (forall d' f' t', first_move text d' f' t' -> d' = d /\ f' = f /\ t' = t)
    as Hfirst.
  { intros d' f' t' Hf%search_move_Some. by simplify_eq. }
  destruct (decide (convertible3 d f t)) as [Hconv|Hconv].
  2:{ destruct (ints_Raise d f t
                  (fun disk from_peg to_peg =>
                     let action := [disk; from_peg; to_peg] in
                     match re_search match_state text with
                     | Some state_str =>
                         let* next_state :=
                           json_loads (string_of_list_ascii state_str) in
                         Ok (action, next_state)
                     | None => Raise (ValueError "next_state not found")
                     end) Hconv) as [msg Hr].
      cbv zeta in Hr. rewrite Hr.
      split_and!; try done.
      - intros d' f' t' _ _. by exists msg.
      - intros d' f' t' Hf Hc. apply Hfirst in Hf as (-> & -> & ->). done.
      - intros d' f' t' cap e Hf Hc. apply Hfirst in Hf as (-> & -> & ->). done.
      - intros a v. split; [done|].
        intros (d' & f' & t' & cap & Hf & Hc & _).
        apply Hfirst in Hf as (-> & -> & ->). done.
      - split; [|done]. intros _. right. left. by exists d, f, t. }
  destruct (Hconv) as (Hcd & Hcf & Hct).
  rewrite (int_of_digits_Ok d Hcd), (int_of_digits_Ok f Hcf),
    (int_of_digits_Ok t Hct).
  cbn [rbind].
  assert (forall d' f' t', first_move text d' f' t' -> ~ ~ convertible3 d' f' t')
    as Hnn.
  { intros d' f' t' Hf Hc. apply Hfirst in Hf as (-> & -> & ->). done. }
  destruct (re_search match_state text) as [cap|] eqn:Hstate.
  2:{ apply search_state_None in Hstate.
      assert (forall cap, ~ captured_state text cap) as Hnc.
      { intros cap (pre & m & post & ? & ? & _). destruct Hstate.
        by exists pre, m, post, cap. }
      split_and!; try done.
      - intros d' f' t' Hf Hc. by destruct (Hnn d' f' t').
      - intros d' f' t' cap e _ _ Hc. by destruct (Hnc cap).
      - intros a v. split; [done|].
        intros (d' & f' & t' & cap & _ & _ & _ & Hc & _). by destruct (Hnc cap).
      - split; [|done]. intros _. by right; right; left. }
  assert (captured_state text cap) as Hcap0 by by apply search_state_Some.
  assert (contains_state text) as Hcs.
  { destruct Hcap0 as (pre & m & post & ? & ? & _). by exists pre, m, post, cap. }
  assert (forall cap', captured_state text cap' -> cap' = cap) as Hcap.
  { intros cap' Hc%search_state_Some. congruence. }
  destruct (json_loads (string_of_list_ascii cap)) as [v0|e0] eqn:Hjson; simpl.
  - split_and!; try done.
    + intros d' f' t' Hf Hc. by destruct (Hnn d' f' t').
    + intros d' f' t' cap' e _ _ Hc Hn. apply Hcap in Hc as ->. congruence.
    + intros a v. split.
      * intros [= <- <-]. by exists d, f, t, cap.
      * intros (d' & f' & t' & cap' & Hf & _ & -> & Hc & Hv).
        apply Hcap in Hc as ->. apply Hfirst in Hf as (-> & -> & ->).
        congruence.
    + split; [done|].
      intros [? | [(d' & f' & t' & Hf & Hc) | [? | (cap' & e & Hc & Hn)]]];
        [done|by destruct (Hnn d' f' t')|done|].
      apply Hcap in Hc as ->. congruence.
  - split_and!; try done.
    + intros d' f' t' Hf Hc. by destruct (Hnn d' f' t').
    + intros d' f' t' cap' e _ _ Hc Hn. apply Hcap in Hc as ->. congruence.
    + intros a v. split; [done|].
      intros (d' & f' & t' & cap' & _ & _ & _ & Hc & Hv).
      apply Hcap in Hc as ->. congruence.
    + split; [|done]. intros _. right. right. right. by exists cap, e0.
Qed.

End ParserFacts.

(** ** The Red-Flagger of the demo on the required format *)

Section RedFlagFacts.
Import Scan Parser Mdap Demo.




End RedFlagFacts.


(** * Further properties of the Hanoi domain *)

(** ** Moves on arbitrary states *)

Section MoveFacts.
Import Hanoi Rules.
Implicit Types (s : HanoiState) (disk from_peg to_peg : Z).

(** X1. A move that returns neither creates nor loses a disk, on any state:
    the disks on the pegs after the move are those before it. *)
Theorem move_conserves_disks s disk from_peg to_peg s' :
  move s disk from_peg to_peg = Ok s' ->
  Permutation (concat (pegs s')) (concat (pegs s))
  /\ num_disks s' = num_disks s /\ length (pegs s') = length (pegs s).
Proof.
  intros Hm. destruct (move_effect _ _ _ _ _ Hm) as (Hn & Hlen & _).
  split; [|done].
  apply move_Ok in Hm as (i & j & src & dst & Hi & Hj & Hsrc & Hdst & Hb & ->).
  simpl. destruct (decide (i = j)) as [<-|Hij].
  { rewrite list_insert_insert_eq. by rewrite list_insert_id. }
  assert (Hlookup : <[i := src]> (pegs s) !! j = Some dst)
    by by rewrite list_lookup_insert_ne.
  apply (Permutation_app_inv_r (dst ++ src ++ [disk])).
  pose proof (concat_insert_perm _ i _ src Hsrc) as H1.
  pose proof (concat_insert_perm _ j _ (dst ++ [disk]) Hlookup) as H2.
  transitivity
    ((concat (<[j := dst ++ [disk]]> (<[i := src]> (pegs s))) ++ dst)
       ++ (src ++ [disk])); [solve_Permutation|].
  rewrite H2.
  transitivity
    ((concat (<[i := src]> (pegs s)) ++ (src ++ [disk])) ++ (dst ++ [disk]));
    [solve_Permutation|].
  rewrite H1. solve_Permutation.
Qed.

Lemma move_conserves_disks_witness :
  Permutation (concat [[2]; [1]; [7; 7]]) (concat [[2; 1]; []; [7; 7]])
  /\ 9 = 9 /\ length [[2]; [1]; [7; 7]] = length [[2; 1]; []; [7; 7]].
Proof.
  apply (move_conserves_disks {| num_disks := 9; pegs := [[2; 1]; []; [7; 7]] |}
           1 0 (-2) {| num_disks := 9; pegs := [[2]; [1]; [7; 7]] |}).
  reflexivity.
Defined.

(** X2. On a state whose pegs are decreasing from bottom to top, a move that
    returns can be undone: moving the same disk back from [to_peg] to
    [from_peg] returns the state before the move. *)
Theorem move_undo s disk from_peg to_peg s' :
  Forall descending (pegs s) ->
  move s disk from_peg to_peg = Ok s' ->
  move s' disk to_peg from_peg = Ok s.
Proof.
  intros Hdesc (i & j & src & dst & Hi & Hj & Hsrc & Hdst & Hb & ->)%move_Ok.
  pose proof (Forall_lookup_1 _ _ _ _ Hdesc Hsrc) as Hsd.
  pose proof (lookup_lt_Some _ _ _ Hsrc) as Hilt.
  pose proof (lookup_lt_Some _ _ _ Hdst) as Hjlt.
  assert (blocked_by src disk = None) as Hback.
  { apply blocked_by_None. intros top [src0 ->]%last_Some.
    apply descending_snoc_inv in Hsd as [_ Hlt].
    specialize (Hlt top). rewrite elem_of_app, list_elem_of_singleton in Hlt.
    specialize (Hlt (or_intror eq_refl)). lia. }
  apply move_Ok. simpl.
  assert (forall x y z,
            py_index (<[j := y]> (<[i := z]> (pegs s))) x = py_index (pegs s) x)
    as Hidx
    by (intros x y z; apply py_index_same_length; by rewrite !length_insert).
  destruct (decide (i = j)) as [<-|Hij].
  - exists i, i, src, (src ++ [disk]).
    rewrite list_insert_insert_eq, list_insert_id by done.
    split_and!; try done.
    + apply blocked_by_None. intros top. rewrite last_snoc. intros [= ->]. lia.
    + rewrite decide_True by done.
      rewrite list_insert_insert_eq, list_insert_id by done. by destruct s.
  - exists j, i, dst, src.
    rewrite !Hidx.
    split_and!; try done.
    + apply list_lookup_insert_eq. by rewrite length_insert.
    + rewrite list_lookup_insert_ne by done. by apply list_lookup_insert_eq.
    + rewrite decide_False by done.
      rewrite list_insert_insert_eq.
      rewrite (list_insert_insert_ne _ i j) by done.
      rewrite list_insert_insert_eq.
      rewrite (list_insert_id _ i) by done.
      rewrite list_insert_id by done. by destruct s.
Qed.

Lemma move_undo_witness :
  move {| num_disks := 3; pegs := [[3; 2]; []; [1]] |} 1 2 0 = Ok (init 3).
Proof.
  apply (move_undo (init 3) 1 0 2).
  - repeat constructor.
  - reflexivity.
Defined.

Lemma moves_shape s calls s' :
  moves s calls = Ok s' ->
  num_disks s' = num_disks s /\ length (pegs s') = length (pegs s).
Proof.
  revert s. induction calls as [|[[d f] t] calls IH]; intros s; simpl.
  - by intros [= <-].
  - destruct (move s d f t) as [s1|] eqn:Hm; simpl; [|done].
    intros (-> & ->)%IH. by apply move_effect in Hm as (? & ? & _).
Qed.

Lemma length_countdown n : length (countdown n) = n.
Proof. induction n as [|n IH]; simpl; [done|]. by rewrite IH. Qed.

(** X3. On every state reached from [HanoiState(n)], [n >= 0], by moves that
    do not raise, [is_solved] returns, and it returns [True] exactly when
    pegs 0 and 1 are empty and peg 2 holds the whole tower [n, ..., 1]. *)
Theorem is_solved_reached n calls s :
  0 <= n -> moves (init n) calls = Ok s ->
  exists solved,
    is_solved s = Ok solved
    /\ (solved = true <-> pegs s = [[]; []; range_down n]).
Proof.
  intros Hn Hrun.
  destruct (moves_shape _ _ _ Hrun) as [Hnum Hlen].
  destruct (moves_well_formed n _ _ _ (init_well_formed n) Hrun) as [Hd Hp].
  simpl in Hnum, Hlen. unfold is_solved. rewrite Hnum.
  destruct (pegs s) as [|p0 [|p1 [|p2 [|]]]] eqn:Hpegs; simplify_eq/=.
  change (py_get [p0; p1; p2] 2) with (Ok p2). simpl.
  eexists. split; [reflexivity|].
  unfold holds_disks in Hp. simpl in Hp. rewrite app_nil_r in Hp.
  pose proof (Permutation_length Hp) as Hl.
  rewrite !length_app in Hl. unfold range_down in *.
  rewrite length_countdown in Hl. rewrite bool_decide_eq_true. unfold len.
  split.
  - intros Hp2. destruct p0; [|simpl in Hl; lia]. destruct p1; [|simpl in Hl; lia].
    do 3 f_equal. simpl in Hp.
    apply Forall_cons in Hd as [_ [_ [Hd2 _]%Forall_cons]%Forall_cons].
    apply (StronglySorted_unique_strong (fun below above => above < below));
      [|done|apply descending_countdown|done].
    intros x1 x2 _ _ ? ?. lia.
  - intros [= -> -> ->]. rewrite length_countdown. lia.
Qed.

Lemma is_solved_reached_witness :
  exists solved,
    is_solved {| num_disks := 1; pegs := [[]; []; [1]] |} = Ok solved
    /\ (solved = true <->
        pegs {| num_disks := 1; pegs := [[]; []; [1]] |} = [[]; []; range_down 1]).
Proof.
  apply (is_solved_reached 1 [(1, 0, 2)]); [lia|reflexivity].
Defined.

Lemma total_len_from acc (ps : list (list Z)) :
  fold_left (fun a peg => a + len peg) ps acc = acc + total_len ps.
Proof.
  unfold total_len. revert acc.
  induction ps as [|peg ps IH]; intros acc; simpl; [lia|].
  rewrite (IH (acc + len peg)), (IH (0 + len peg)). lia.
Qed.

Lemma total_len_cons (p : list Z) (ps : list (list Z)) :
  total_len (p :: ps) = len p + total_len ps.
Proof. unfold total_len at 1. simpl. rewrite total_len_from. lia. Qed.

Lemma total_len_zero (ps : list (list Z)) :
  total_len ps = 0 <-> Forall (fun p => p = []) ps.
Proof.
  induction ps as [|p ps IH].
  - split; [constructor|done].
  - rewrite total_len_cons, Forall_cons, <- IH, <- len_nil_iff.
    pose proof (len_nonneg p).
    assert (0 <= total_len ps); [|lia].
    clear. induction ps as [|q ps IH]; [done|].
    rewrite total_len_cons. pose proof (len_nonneg q). lia.
Qed.

(** X4. [from_list] takes any number of pegs. With fewer than three pegs
    [is_solved] raises [IndexError]; with three or more it holds exactly
    when every peg other than peg 2 is empty, whatever the order of the
    disks on peg 2. *)
Theorem is_solved_from_list (ps : list (list Z)) :
  ((length ps < 3)%nat -> is_solved (from_list ps) = Raise IndexError)
  /\ (forall p0 p1 p2 rest, ps = p0 :: p1 :: p2 :: rest ->
        exists solved,
          is_solved (from_list ps) = Ok solved
          /\ (solved = true <->
              p0 = [] /\ p1 = [] /\ Forall (fun p => p = []) rest)).
Proof.
  split.
  - intros Hlen. by destruct ps as [|p0 [|p1 [|p2 rest]]]; [..|simpl in Hlen; lia].
  - intros p0 p1 p2 rest ->. unfold is_solved, from_list. simpl.
    rewrite !map_id.
    assert (py_get (p0 :: p1 :: p2 :: rest) 2 = Ok p2) as ->.
    { apply py_get_Ok. exists 2%nat. split; [|done].
      unfold py_index. rewrite decide_True; [done|]. simpl length. lia. }
    simpl. eexists. split; [reflexivity|].
    rewrite bool_decide_eq_true, !total_len_cons.
    rewrite <- total_len_zero, <- (len_nil_iff p0), <- (len_nil_iff p1).
    pose proof (len_nonneg p0). pose proof (len_nonneg p1).
    assert (0 <= total_len rest); [|lia].
    clear. induction rest as [|q ps IH]; [done|].
    rewrite total_len_cons. pose proof (len_nonneg q). lia.
Qed.

End MoveFacts.

(** ** The ground truth as a source of moves *)

Section GroundTruthFacts.
Import Hanoi Rules Calibration.

Lemma py_get_nonneg {A} (l : list A) (i : Z) :
  0 <= i < Z.of_nat (length l) -> exists x, l !! Z.to_nat i = Some x /\ py_get l i = Ok x.
Proof.
  intros Hi. destruct (lookup_lt_is_Some_2 l (Z.to_nat i)) as [x Hx]; [lia|].
  exists x. split; [done|]. apply py_get_Ok. exists (Z.to_nat i).
  split; [|done]. unfold py_index. by rewrite decide_True.
Qed.

Lemma py_get_Ok_range {A} (l : list A) (i : Z) x :
  0 <= i -> py_get l i = Ok x ->
  i < Z.of_nat (length l) /\ l !! Z.to_nat i = Some x
  /\ py_index l i = Some (Z.to_nat i).
Proof.
  intros Hi (k & Hk & Hx)%py_get_Ok. unfold py_index in Hk.
  repeat case_decide; simplify_eq; try lia. split_and!; [lia|done|].
  unfold py_index. by rewrite decide_True.
Qed.

(** The inner loop returns only targets that it read and that accept the
    disk. *)
Lemma try_targets_Some state f d targets a :
  Forall (fun t => 0 <= t) targets ->
  try_targets state f d targets = Ok (Some a) ->
  exists t dst,
    a = [d; f; t] /\ t ∈ targets /\ t <> f /\ 0 <= t
    /\ py_get state t = Ok dst /\ accepts dst d = true.
Proof.
  induction targets as [|t targets IH]; intros Hpos; simpl; [done|].
  apply Forall_cons in Hpos as [Ht Hpos].
  assert (try_targets state f d targets = Ok (Some a) ->
          exists t' dst, a = [d; f; t'] /\ t' ∈ t :: targets /\ t' <> f /\ 0 <= t'
                         /\ py_get state t' = Ok dst /\ accepts dst d = true)
    as Hrest.
  { intros Hr.
    destruct (IH Hpos Hr) as (t' & dst & -> & Hin & Hne & Hge & Hget & Hacc).
    exists t', dst. split_and!; [done|by right|done..]. }
  case_bool_decide as Hf; [done|].
  destruct (py_get state t) as [dst|] eqn:Hget; simpl; [|done].
  destruct (accepts dst d) eqn:Hacc; [|done].
  intros [= <-]. exists t, dst. split_and!; try done. by left.
Qed.

Lemma try_targets_total state f d targets :
  Forall (fun t => 0 <= t < Z.of_nat (length state)) targets ->
  exists r, try_targets state f d targets = Ok r.
Proof.
  induction targets as [|t targets IH]; intros Hall; simpl; [by eauto|].
  apply Forall_cons in Hall as [Ht Hall].
  case_bool_decide; [by apply IH|].
  destruct (py_get_nonneg state t Ht) as (dst & _ & ->). simpl.
  destruct (accepts dst d); [by eauto|by apply IH].
Qed.

(** The outer loop over the pegs from position [idx] on. *)
Lemma first_legal_move_Some state idx rest a :
  0 <= idx -> (forall k, rest !! k = state !! (Z.to_nat idx + k)%nat) ->
  first_legal_move state idx rest = Ok (Some a) ->
  exists d f t src dst,
    a = [d; f; t] /\ d <> 1 /\ t <> f /\ 0 <= f /\ 0 <= t < 3
    /\ state !! Z.to_nat f = Some src /\ last src = Some d
    /\ py_get state t = Ok dst /\ accepts dst d = true.
Proof.
  revert idx. induction rest as [|p rest IH]; intros idx Hidx Hrest;
    cbn [first_legal_move]; [done|].
  assert (forall k, rest !! k = state !! (Z.to_nat (idx + 1) + k)%nat) as Hrest'.
  { intros k. specialize (Hrest (S k)). simpl in Hrest. rewrite Hrest.
    f_equal. lia. }
  destruct (last p) as [d|] eqn:Hl; [|apply IH; [lia|done]].
  case_bool_decide as Hd; [apply IH; [lia|done]|].
  destruct (try_targets state idx d [0; 1; 2]) as [[a'|]|] eqn:Htry; simpl;
    [|apply IH; [lia|done]|done].
  intros [= <-].
  apply try_targets_Some in Htry as (t & dst & -> & Ht & ? & ? & ? & ?);
    [|repeat constructor; lia].
  assert (0 <= t < 3) as Ht3.
  { repeat (apply elem_of_cons in Ht as [->|Ht]); [lia..|].
    by apply elem_of_nil in Ht. }
  exists d, idx, t, p, dst. split_and!; try done; try lia.
  specialize (Hrest 0%nat). rewrite Nat.add_0_r in Hrest. by rewrite <- Hrest.
Qed.

Lemma first_legal_move_total state idx rest :
  (3 <= length state)%nat -> exists r, first_legal_move state idx rest = Ok r.
Proof.
  intros Hlen. revert idx. induction rest as [|p rest IH]; intros idx;
    cbn [first_legal_move]; [by eauto|].
  destruct (last p) as [d|]; [|apply IH].
  case_bool_decide; [apply IH|].
  destruct (try_targets_total state idx d [0; 1; 2]) as [[a|] ->]; simpl;
    [repeat constructor; lia|by eauto|apply IH].
Qed.

(** X5. On a state with at least three pegs [compute_hanoi_ground_truth]
    never raises: it returns a move or [None]. *)
Theorem ground_truth_returns (state : list (list Z)) (n : Z) :
  (3 <= length state)%nat ->
  exists r, compute_hanoi_ground_truth state n = Ok r.
Proof.
  intros Hlen. unfold compute_hanoi_ground_truth.
  destruct (disk1_peg state); [by eauto|by apply first_legal_move_total].
Qed.

Lemma ground_truth_returns_witness :
  exists r, compute_hanoi_ground_truth [[3; 2]; [4]; []; [6; 5]] 6 = Ok r.
Proof. apply ground_truth_returns. simpl. lia. Defined.

Lemma find_disk1_Some idx (rest : list (list Z)) p :
  find_disk1 idx rest = Some p ->
  exists k peg, p = idx + Z.of_nat k /\ rest !! k = Some peg /\ last peg = Some 1.
Proof.
  revert idx. induction rest as [|q rest IH]; intros idx; simpl; [done|].
  destruct (top_is q 1) eqn:Hq.
  - intros [= <-]. exists 0%nat, q. split_and!; [lia|done|by apply top_is_true].
  - intros (k & peg & -> & ? & ?)%IH. exists (S k), peg. split_and!; [lia|done|done].
Qed.

(** X6. On a state with at least three pegs whose disks are all numbered
    from 1 upwards, every move that [compute_hanoi_ground_truth] returns is
    accepted by [HanoiState.move]: it names two different pegs and the disk
    on top of the source peg, and the target peg is empty or has a larger
    disk on top. *)
Theorem ground_truth_move_is_legal (state : list (list Z)) (n : Z) a :
  (3 <= length state)%nat ->
  (forall x, x ∈ concat state -> 1 <= x) ->
  compute_hanoi_ground_truth state n = Ok (Some a) ->
  exists d f t s',
    a = [d; f; t] /\ f <> t /\ 0 <= f /\ 0 <= t < 3
    /\ move (from_list state) d f t = Ok s'.
Proof.
  intros Hlen Hpos. unfold compute_hanoi_ground_truth, disk1_peg.
  assert (forall d f t src dst,
            0 <= f -> 0 <= t ->
            state !! Z.to_nat f = Some src -> last src = Some d ->
            py_get state t = Ok dst -> blocked_by dst d = None ->
            exists s', move (from_list state) d f t = Ok s') as Hmove.
  { intros d f t src dst Hf Ht Hsrc Hl Hdst Hb.
    apply last_Some in Hl as [src0 ->].
    apply (py_get_Ok_range _ _ _ Ht) in Hdst as (_ & Hdst & Hj).
    eexists. apply move_Ok. exists (Z.to_nat f), (Z.to_nat t), src0, dst.
    unfold from_list. simpl. rewrite !map_id. split_and!; try done.
    unfold py_index. rewrite decide_True; [done|].
    apply lookup_lt_Some in Hsrc. lia. }
  destruct (find_disk1 0 state) as [p|] eqn:Hfind.
  - intros [= <-].
    apply find_disk1_Some in Hfind as (k & peg & -> & Hpeg & Hl).
    assert (0 <= (0 + Z.of_nat k + 2) mod 3 < 3) as Ht by (apply Z.mod_pos_bound; lia).
    destruct (py_get_nonneg state ((0 + Z.of_nat k + 2) mod 3)) as (dst & Hdst & Hget);
      [lia|].
    destruct (Hmove 1 (0 + Z.of_nat k) ((0 + Z.of_nat k + 2) mod 3) peg dst)
      as [s' Hs']; try done; try lia.
    { by replace (Z.to_nat (0 + Z.of_nat k)) with k by lia. }
    { apply blocked_by_None. intros top Htop Hlt.
      assert (1 <= top); [|lia]. apply Hpos.
      eapply elem_of_concat_lookup; [exact Hdst|]. by eapply last_Some_elem_of. }
    exists 1, (0 + Z.of_nat k), ((0 + Z.of_nat k + 2) mod 3), s'.
    split_and!; try done; try lia.
    intros Heq. rewrite <- Heq in Ht.
    assert (0 + Z.of_nat k = 0 \/ 0 + Z.of_nat k = 1 \/ 0 + Z.of_nat k = 2)
      as [Hk | [Hk | Hk]] by lia; rewrite Hk in Heq; by vm_compute in Heq.
  - intros (d & f & t & src & dst & -> & _ & Htf & Hf & Ht & Hsrc & Hl & Hdst
            & Hacc)%first_legal_move_Some; [|lia|done].
    destruct (Hmove d f t src dst) as [s' Hs']; try done; try lia.
    { apply blocked_by_None. intros top Htop Hlt. unfold accepts in Hacc.
      rewrite Htop in Hacc. apply bool_decide_eq_true in Hacc. lia. }
    exists d, f, t, s'. split_and!; try done; try lia.
Qed.

Lemma ground_truth_move_is_legal_witness :
  exists d f t s',
    [2; 0; 1] = [d; f; t] /\ f <> t /\ 0 <= f /\ 0 <= t < 3
    /\ move (from_list [[3; 2]; []; []; [1; 4]]) d f t = Ok s'.
Proof.
  apply (ground_truth_move_is_legal [[3; 2]; []; []; [1; 4]] 4 [2; 0; 1]).
  - simpl. lia.
  - intros x Hx. simpl in Hx.
    repeat (apply elem_of_cons in Hx as [->|Hx]); [lia..|].
    by apply elem_of_nil in Hx.
  - reflexivity.
Defined.

End GroundTruthFacts.

(** ** The ground truth on the states of a run, and in calibration *)

Section ReachedFacts.
Import Hanoi Rules Calibration Mdap.

(** The smallest disk of a decreasing peg is on top. *)
Lemma descending_one_on_top peg :
  descending peg -> (forall x, x ∈ peg -> 1 <= x) -> 1 ∈ peg -> last peg = Some 1.
Proof.
  intros Hd Hpos (l1 & l2 & ->)%list_elem_of_split.
  apply StronglySorted_app in Hd as (_ & _ & Hd).
  apply StronglySorted_cons in Hd as [Hlt _].
  destruct l2 as [|y l2].
  - apply last_snoc.
  - apply Forall_cons in Hlt as [Hy _].
    assert (1 <= y); [|lia]. apply Hpos. set_solver.
Qed.

Lemma last_countdown n : last (countdown (S n)) = Some 1.
Proof.
  induction n as [|n IH]; [done|].
  change (countdown (S (S n))) with (Z.of_nat (S (S n)) :: countdown (S n)).
  by rewrite last_cons, IH.
Qed.

(** X7. On every state reached from [HanoiState(n)], [n >= 1], by moves that
    do not raise, disk 1 is on top of one of the three pegs and
    [compute_hanoi_ground_truth] returns the clockwise move of disk 1 from
    that peg: on the states of a run the search for a move of another disk
    is never reached. *)
Theorem ground_truth_on_reached n calls s n' :
  1 <= n -> moves (init n) calls = Ok s ->
  exists p,
    0 <= p < 3 /\ on_top (pegs s) p 1
    /\ compute_hanoi_ground_truth (to_list s) n' = Ok (Some [1; p; (p + 2) mod 3]).
Proof.
  intros Hn Hrun.
  destruct (moves_shape _ _ _ Hrun) as [_ Hlen]. simpl in Hlen.
  destruct (moves_well_formed n _ _ _ (init_well_formed n) Hrun) as [Hd Hp].
  unfold holds_disks, range_down in Hp.
  assert (forall x, x ∈ concat (pegs s) -> 1 <= x) as Hpos.
  { intros x. rewrite Hp, elem_of_countdown. lia. }
  assert (1 ∈ concat (pegs s)) as Hone.
  { rewrite Hp, elem_of_countdown. lia. }
  apply list_elem_of_In, in_concat in Hone as (peg & Hpeg & Hin).
  apply list_elem_of_In, list_elem_of_lookup in Hpeg as [k Hk].
  apply list_elem_of_In in Hin.
  assert (last peg = Some 1) as Hl.
  { apply descending_one_on_top; [by eapply Forall_lookup_1|
                                   |done].
    intros x Hx. apply Hpos. by eapply elem_of_concat_lookup. }
  unfold compute_hanoi_ground_truth, disk1_peg, to_list. rewrite map_id.
  destruct (find_disk1 0 (pegs s)) as [p|] eqn:Hfind.
  - apply find_disk1_Some in Hfind as (k' & peg' & -> & Hk' & Hl').
    pose proof (lookup_lt_Some _ _ _ Hk').
    exists (0 + Z.of_nat k'). split_and!; [lia|lia| |done].
    exists peg'. split_and!; [lia| |done].
    by replace (Z.to_nat (0 + Z.of_nat k')) with k' by lia.
  - exfalso. by apply (proj1 (find_disk1_None 0 (pegs s)) Hfind k peg).
Qed.

Lemma ground_truth_on_reached_witness :
  exists p,
    0 <= p < 3 /\ on_top [[2]; [1]; []] p 1
    /\ compute_hanoi_ground_truth [[2]; [1]; []] 2 = Ok (Some [1; p; (p + 2) mod 3]).
Proof.
  apply (ground_truth_on_reached 2 [(1, 0, 1)]
           {| num_disks := 2; pegs := [[2]; [1]; []] |} 2); [lia|reflexivity].
Defined.

(** X8. In calibration every sampled step carries the initial state, so for
    [num_disks >= 1] the ground truth of every sample is the same move
    [[1, 0, 2]], whatever step index was drawn. *)
Theorem calibration_ground_truth_is_constant (n drawn idx : Z) :
  1 <= n ->
  exists input,
    task_sampler n drawn idx = Ok input
    /\ state input = [range_down n; []; []]
    /\ prev_move (metadata input) = None
    /\ ground_truth_fn n input = Ok (Some [1; 0; 2]).
Proof.
  intros Hn. unfold task_sampler.
  assert (2 ^ 1 <= 2 ^ n) as Hpow by (apply Z.pow_le_mono_r; lia).
  rewrite decide_False by (change (2 ^ 1) with 2 in Hpow; lia).
  eexists. split; [reflexivity|]. simpl. split_and!; [done|done|].
  unfold ground_truth_fn, compute_hanoi_ground_truth, disk1_peg. simpl.
  unfold range_down. destruct (Z.to_nat n) as [|m] eqn:Hm; [lia|].
  by rewrite (proj2 (top_is_true _ _) (last_countdown m)).
Qed.

Lemma calibration_ground_truth_is_constant_witness :
  exists input,
    task_sampler 10 517 0 = Ok input
    /\ state input = [range_down 10; []; []]
    /\ prev_move (metadata input) = None
    /\ ground_truth_fn 10 input = Ok (Some [1; 0; 2]).
Proof. apply calibration_ground_truth_is_constant. lia. Defined.

End ReachedFacts.

(** ** The terminal validator on any state *)

Section ValidatorFacts.
Import Hanoi Rules.
Context {A : Type}.

Lemma fold_max_spec (fs : list (list Z)) (acc : Z) :
  let r := fold_left (fun m peg => Z.max m (len peg)) fs acc in
  acc <= r /\ (forall p, p ∈ fs -> len p <= r)
  /\ (r = acc \/ exists p, p ∈ fs /\ r = len p).
Proof.
  revert acc. induction fs as [|q fs IH]; intros acc; simpl.
  - split_and!; [lia| |by left]. intros p Hp. by apply elem_of_nil in Hp.
  - destruct (IH (Z.max acc (len q))) as (Hacc & Hall & Hr). split_and!.
    + lia.
    + intros p [-> | Hp]%elem_of_cons; [lia|by apply Hall].
    + destruct Hr as [Hr | (p & Hp & Hr)].
      * destruct (Z.max_spec acc (len q)) as [[_ Hm] | [_ Hm]].
        -- right. exists q. split; [by left|lia].
        -- left. lia.
      * right. exists p. split; [by right|done].
Qed.

(** X9. What [hanoi_validator] decides, on any final state: it raises
    [IndexError] when the state has fewer than three pegs, and otherwise
    returns ok exactly when no peg is longer than peg 2 and the number of
    actions is [2 ^ m - 1] for the length [m] of peg 2. It does not look at
    which disks are where. *)
Theorem hanoi_validator_accepts_iff (final_state : list (list Z)) (actions : list A) :
  ((length final_state < 3)%nat ->
     hanoi_validator final_state actions = Raise IndexError)
  /\ (forall p2, final_state !! 2%nat = Some p2 ->
        exists ok reason,
          hanoi_validator final_state actions = Ok (ok, reason)
          /\ (ok = true <->
              (forall p, p ∈ final_state -> len p <= len p2)
              /\ len actions = 2 ^ len p2 - 1)).
Proof.
  split.
  - intros Hlen. unfold hanoi_validator.
    assert (py_get final_state 2 = Raise IndexError) as ->; [|done].
    unfold py_get, py_index. rewrite decide_False by lia.
    by rewrite decide_False by lia.
  - intros p2 Hp2. unfold hanoi_validator, validator_num_disks.
    change (total_len [[]; []; []]) with 0.
    assert (py_get final_state 2 = Ok p2) as ->.
    { apply py_get_Ok. exists 2%nat. split; [|done]. unfold py_index.
      apply lookup_lt_Some in Hp2. rewrite decide_True; [done|lia]. }
    simpl. destruct (fold_max_spec final_state 0) as (H0 & Hall & Hr).
    set (r := fold_left (fun m peg => Z.max m (len peg)) final_state 0) in *.
    assert (p2 ∈ final_state) as Hin by by eapply list_elem_of_lookup_2.
    case_bool_decide as Hd; simpl.
    + rewrite <- Hd. case_bool_decide as Hm; simpl; eexists _, _;
        (split; [reflexivity|]).
      * split; [|done]. intros _. split; [|done]. intros p Hp. rewrite Hd.
        by apply Hall.
      * split; [done|]. by intros [_ ?].
    + eexists _, _. split; [reflexivity|]. split; [done|]. intros [Hle _].
      destruct Hd. apply Z.le_antisymm; [by apply Hall|].
      destruct Hr as [-> | (p & Hp & ->)]; [apply len_nonneg|by apply Hle].
Qed.

(** X10. At the end of a full run the validator agrees with [is_solved]: on
    a state reached from [HanoiState(n)] by moves that do not raise, with
    [2 ^ n - 1] actions, it returns ok exactly when [is_solved] holds. *)
Theorem hanoi_validator_on_full_run n calls s (actions : list A) :
  0 <= n -> moves (init n) calls = Ok s -> len actions = 2 ^ n - 1 ->
  exists ok reason,
    hanoi_validator (to_list s) actions = Ok (ok, reason)
    /\ (ok = true <-> is_solved s = Ok true).
Proof.
  intros Hn Hrun Hact.
  destruct (moves_shape _ _ _ Hrun) as [Hnum Hlen].
  destruct (moves_well_formed n _ _ _ (init_well_formed n) Hrun) as [_ Hp].
  simpl in Hnum, Hlen. unfold to_list, is_solved. rewrite map_id, Hnum.
  destruct (pegs s) as [|p0 [|p1 [|p2 [|]]]] eqn:Hpegs; simplify_eq/=.
  unfold holds_disks in Hp. simpl in Hp. rewrite app_nil_r in Hp.
  pose proof (Permutation_length Hp) as Hl.
  rewrite !length_app in Hl. unfold range_down in Hl.
  rewrite length_countdown in Hl.
  destruct (hanoi_validator_decides p0 p1 p2 actions) as (ok & reason & -> & Hok).
  exists ok, reason. split; [done|].
  change (py_get [p0; p1; p2] 2) with (Ok p2). simpl.
  rewrite Hok, Hact. unfold len in *. split.
  - intros (H0 & H1 & Hpow). f_equal. apply bool_decide_eq_true.
    apply (Z.pow_inj_r 2); lia.
  - intros [= Hs%bool_decide_eq_true]. rewrite Hs. lia.
Qed.

End ValidatorFacts.

Lemma hanoi_validator_on_full_run_witness :
  exists ok reason,
    Hanoi.hanoi_validator [[]; []; [1]] [[1; 0; 2]] = Ok (ok, reason)
    /\ (ok = true <->
        Hanoi.is_solved {| Hanoi.num_disks := 1; Hanoi.pegs := [[]; []; [1]] |}
        = Ok true).
Proof.
  apply (hanoi_validator_on_full_run 1 [(1, 0, 2)]
           {| Hanoi.num_disks := 1; Hanoi.pegs := [[]; []; [1]] |} [[1; 0; 2]]);
    [lia|reflexivity|reflexivity].
Defined.


(** ** The response parser on formatted outputs *)

Section ParserRoundTrip.
Import Scan Parser.
Variable JSON : Type.
Variable json_loads : string -> result JSON.

(** X11. The action that [parse_hanoi_response] returns is a list of exactly
    three integers, none of them negative: a parsed action never carries a
    negative peg subscript. *)
Theorem parsed_action_is_three_naturals raw_text a v :
  parse_hanoi_response JSON json_loads raw_text = Ok (a, v) ->
  exists disk from_peg to_peg,
    a = [disk; from_peg; to_peg] /\ 0 <= disk /\ 0 <= from_peg /\ 0 <= to_peg.
Proof.
  unfold parse_hanoi_response.
  destruct (re_search match_move (chars raw_text)) as [[[d f] t]|] eqn:Hm; [|done].
  destruct (int_of_digits d) as [x|] eqn:Hx; [|done].
  destruct (int_of_digits f) as [y|] eqn:Hy; [|done].
  destruct (int_of_digits t) as [z|] eqn:Hz; [|done].
  cbn [rbind].
  destruct (re_search match_state (chars raw_text)) as [cap|]; [|done].
  destruct (json_loads (string_of_list_ascii cap)); [|done].
  intros [= <- <-].
  apply int_of_digits_inv in Hx as [_ ->].
  apply int_of_digits_inv in Hy as [_ ->].
  apply int_of_digits_inv in Hz as [_ ->].
  apply re_search_Some in Hm as (pre & post & _ & Hm & _).
  apply match_move_spec in Hm as (m & rest & _ & Hi).
  destruct Hi as (w & ws1 & ws2 & ws3 & ws4 & _ & _ & _ & _ & _ & _
                  & [_ Hd] & [_ Hf] & [_ Ht]).
  eexists _, _, _. split; [reflexivity|].
  split_and!; by apply decimal_nonneg.
Qed.

Lemma re_search_here {R} (m : list ascii -> option R) s x :
  m s = Some x -> re_search m s = Some x.
Proof. intros Hm. destruct s; simpl; by rewrite Hm. Qed.

(** The search for the next_state pattern passes over a prefix that holds
    no letter n. *)
Lemma search_state_skip pre s :
  Forall (fun c => lower c <> "n"%char) pre ->
  re_search match_state (pre ++ s) = re_search match_state s.
Proof.
  induction pre as [|c pre IH]; intros Hpre; [done|].
  apply Forall_cons in Hpre as [Hc Hpre]. simpl.
  assert (match_state (c :: pre ++ s) = None) as ->; [|by apply IH].
  unfold match_state.
  change (chars "next_state") with ("n"%char :: chars "ext_state").
  cbn [lit_ci]. change (lower "n") with "n"%char.
  by rewrite bool_decide_eq_false_2.
Qed.

Lemma space_not_n c : is_space c = true -> lower c <> "n"%char.
Proof. destruct c as [[] [] [] [] [] [] [] []]; vm_compute; congruence. Qed.

Lemma digit_not_n c : is_digit c = true -> lower c <> "n"%char.
Proof. destruct c as [[] [] [] [] [] [] [] []]; vm_compute; congruence. Qed.

Lemma spaces_no_n ws : spaces ws -> Forall (fun c => lower c <> "n"%char) ws.
Proof. intros Hws. eapply Forall_impl; [exact Hws|]. intros c. apply space_not_n. Qed.

Lemma number_no_n d : number d -> Forall (fun c => lower c <> "n"%char) d.
Proof. intros [_ Hd]. eapply Forall_impl; [exact Hd|]. intros c. apply digit_not_n. Qed.

(** An instance of the move pattern holds no letter n. *)
Lemma move_instance_no_n m d f t :
  move_instance m d f t -> Forall (fun c => lower c <> "n"%char) m.
Proof.
  intros (w & ws1 & ws2 & ws3 & ws4 & -> & Hw & Hws1 & Hws2 & Hws3 & Hws4
          & Hd & Hf & Ht).
  unfold same_ci in Hw.
  destruct w as [|c1 [|c2 [|c3 [|c4 [|]]]]]; try done.
  injection Hw as H1 H2 H3 H4.
  change (lower "m") with "m"%char in H1. change (lower "o") with "o"%char in H2.
  change (lower "v") with "v"%char in H3. change (lower "e") with "e"%char in H4.
  assert (Hp : forall c, punct c -> Forall (fun c => lower c <> "n"%char) [c]).
  { intros c Hc. apply Forall_singleton. unfold punct in Hc.
    repeat (apply elem_of_cons in Hc as [->|Hc]); [by vm_compute..|].
    by apply elem_of_nil in Hc. }
  assert (Hpunct : forall c, c ∈ chars "=[,]" -> punct c) by done.
  rewrite !Forall_app. split_and!;
    try (by apply spaces_no_n); try (by apply number_no_n);
    try (apply Hp, Hpunct; vm_compute; set_solver).
  repeat apply Forall_cons_2; [congruence..|apply Forall_nil_2].
Qed.

(** X12. An output in the required format is parsed to what it says: when
    the text starts with an instance of the move pattern whose three
    numbers have no more digits than [int] converts, followed by text
    without the letter n, followed by an instance of the next_state pattern
    after which no closing bracket occurs, [parse_hanoi_response] returns
    the three numbers that the digits of the move denote in decimal
    notation and the JSON value of the next_state text. *)
Theorem parse_formatted_output m sep ms post d f t cap v :
  move_instance m d f t -> convertible3 d f t ->
  Forall (fun c => lower c <> "n"%char) sep ->
  state_instance ms cap -> ~ "]"%char ∈ post ->
  json_loads (string_of_list_ascii cap) = Ok v ->
  parse_hanoi_response JSON json_loads
    (string_of_list_ascii (m ++ sep ++ ms ++ post))
  = Ok ([decimal d; decimal f; decimal t], v).
Proof.
  intros Hm (Hcd & Hcf & Hct) Hsep Hms Hpost Hv.
  unfold parse_hanoi_response, chars.
  rewrite list_ascii_of_string_of_list_ascii.
  rewrite (re_search_here match_move _ (d, f, t))
    by (apply match_move_spec; eauto).
  rewrite (int_of_digits_Ok d Hcd), (int_of_digits_Ok f Hcf),
    (int_of_digits_Ok t Hct).
  cbn [rbind].
  rewrite app_assoc, search_state_skip
    by (apply Forall_app; split; [by eapply move_instance_no_n|done]).
  rewrite (re_search_here match_state _ cap)
    by (apply match_state_spec; eauto).
  by rewrite Hv.
Qed.

End ParserRoundTrip.

(** The example of the strategy prompt, with a parser of JSON that returns
    the text. *)
Lemma parse_formatted_output_witness :
  Parser.parse_hanoi_response string Ok
    (string_of_list_ascii
       (Scan.chars "move = [1, 0, 2]" ++ Scan.chars Parser.nl
          ++ Scan.chars "next_state = [[5, 4, 3, 2], [], [1]]"
          ++ Scan.chars Parser.nl))
  = Ok ([1; 0; 2], "[[5, 4, 3, 2], [], [1]]").
Proof.
  apply (parse_formatted_output string Ok
           (Scan.chars "move = [1, 0, 2]") (Scan.chars Parser.nl)
           (Scan.chars "next_state = [[5, 4, 3, 2], [], [1]]")
           (Scan.chars Parser.nl)
           (Scan.chars "1") (Scan.chars "0") (Scan.chars "2")
           (Scan.chars "[[5, 4, 3, 2], [], [1]]")).
  - exists (Scan.chars "move"), (Scan.chars " "), (Scan.chars " "),
      (Scan.chars " "), (Scan.chars " ").
    unfold Scan.spaces, Scan.number. split_and!; try done; by repeat constructor.
  - unfold Scan.convertible3, Scan.convertible, Scan.int_max_str_digits.
    simpl. lia.
  - by repeat constructor.
  - exists (Scan.chars "next_state"), (Scan.chars " "), (Scan.chars " "),
      (Scan.chars "[5, 4, 3, 2], [], [1]").
    unfold Scan.spaces. split_and!; try done; by repeat constructor.
  - vm_compute. intros Hin.
    repeat (apply elem_of_cons in Hin as [Hin|Hin]; [discriminate|]).
    by apply elem_of_nil in Hin.
  - reflexivity.
Defined.

Lemma parsed_action_is_three_naturals_witness :
  Parser.parse_hanoi_response string Ok Parser.example_output
  = Ok ([1; 0; 2], "[[5, 4, 3, 2], [], [1]]")
  /\ exists disk from_peg to_peg,
       [1; 0; 2] = [disk; from_peg; to_peg]
       /\ 0 <= disk /\ 0 <= from_peg /\ 0 <= to_peg.
Proof.
  split; [reflexivity|].
  apply (parsed_action_is_three_naturals string Ok Parser.example_output
           [1; 0; 2] "[[5, 4, 3, 2], [], [1]]").
  reflexivity.
Defined.
